(** * safe_password: the password engine of [safe_password.py]

    A shallow embedding of the four non-GUI units of the program
    ([CharsetBuilder], [PasswordGenerator], [PasswordRulesValidator], the
    strength rules and [PasswordStrengthCounter]) and the properties of them.

    Conventions of the embedding:
    - a Python [str] is a list of Unicode code points ([char := N]);
    - a Python [int] is a [Z]; [len] is a [nat];
    - a Python [float] is a binary64 primitive float, with the same
      round-to-nearest operations;
    - an object with mutable fields is a record, a method returns its result
      together with the updated object;
    - the module-level generator of [random] is an explicit state; a raised
      exception is an outcome of the call, and so is a loop that never
      exits. *)

From Stdlib Require Import PrimFloat.
From stdpp Require Import base decidable option numbers list strings.

Set Warnings "-inexact-float".

(** ** Python values *)

Abbreviation char := N (only parsing).
Abbreviation str := (list char) (only parsing).

(** A string literal of the source, as the list of its code points. *)
Fixpoint lit (s : string) : str :=
  match s with
  | EmptyString => []
  | String a s' => Ascii.N_of_ascii a :: lit s'
  end.

(** [s.count(c)] for a one-character [c]. *)
Fixpoint count (c : char) (s : str) : nat :=
  match s with
  | [] => 0
  | x :: s' => (if decide (x = c) then 1 else 0) + count c s'
  end.

(** The outcome of a call: a returned value, a raised exception, named by
    its class, or no end of the call. *)
Inductive outcome (A : Type) : Type :=
  | Returned (a : A)
  | Raised (exn_class : string)
  | Loops.
Arguments Returned {A} a.
Arguments Raised {A} exn_class.
Arguments Loops {A}.

Definition raises {A} (cls : string) (o : outcome A) : Prop :=
  o = Raised cls.

(** ** CharsetBuilder *)

Module CharsetBuilder.

Record t : Type := Build {
  included_chars : str;
  excluded_chars : str
}.

Definition init : t := Build [] [].

Definition include_chars (self : t) (chars : str) : t :=
  Build (included_chars self ++ chars) (excluded_chars self).

Definition exclude_chars (self : t) (chars : str) : t :=
  Build (included_chars self) (excluded_chars self ++ chars).

(** The [for char in self.included_chars] loop of [build], on the rest of
    the string still to visit and the [charset] accumulated so far. *)
Fixpoint build_loop (excluded : str) (rest : str) (charset : str) : str :=
  match rest with
  | [] => charset
  | char :: rest' =>
      build_loop excluded rest'
        (if negb (bool_decide (char ∈ excluded))
         then charset ++ [char] else charset)
  end.

Section Build.
(** [''.join(set(s))]: the characters of [s] in the iteration order of a
    Python set, which the language leaves unspecified. *)
Variable join_set : str → str.

Definition build (self : t) : str * t :=
  let included := join_set (included_chars self) in
  let excluded := join_set (excluded_chars self) in
  (build_loop excluded included [], Build included excluded).
End Build.

(** A sequence of calls on a fresh builder. *)
Inductive call : Type :=
  | Include (chars : str)
  | Exclude (chars : str).

Definition do_call (self : t) (c : call) : t :=
  match c with
  | Include chars => include_chars self chars
  | Exclude chars => exclude_chars self chars
  end.

Definition run (calls : list call) : t := foldl do_call init calls.

End CharsetBuilder.

(** What is known of the iteration order of a set: each element of the
    string once, and nothing else. *)
Definition set_order (join_set : str → str) : Prop :=
  ∀ s, NoDup (join_set s) ∧ ∀ c, c ∈ join_set s ↔ c ∈ s.

(** ** The [random] module

    The generator state is the sequence of raw draws still to come: every
    run of the program is the run on some such sequence.  [randbelow n]
    consumes one draw and reduces it below [n]; past the end of the sequence
    every draw is 0. *)

Module random.

Definition state : Type := list nat.

Definition M (A : Type) : Type := state → outcome A * state.

#[global] Instance M_ret : MRet M := λ A a g, (Returned a, g).

#[global] Instance M_bind : MBind M := λ A B f m g,
  match m g with
  | (Returned a, g') => f a g'
  | (Raised e, g') => (Raised e, g')
  | (Loops, g') => (Loops, g')
  end.

Definition raise {A} (exn_class : string) : M A :=
  λ g, (Raised exn_class, g).

Definition randbelow (n : nat) : M nat := λ g,
  match g with
  | [] => (Returned 0, [])
  | x :: g' => (Returned (x mod n), g')
  end.

(** [seq[i]] for [i >= 0]. *)
Definition getitem (seq : str) (i : nat) : M char :=
  match seq !! i with
  | Some c => mret c
  | None => raise "IndexError"
  end.

(** [random.choice(seq)]. *)
Definition choice (seq : str) : M char :=
  if decide (length seq = 0) then raise "IndexError"
  else j ← randbelow (length seq); getitem seq j.

(** The first selection loop of [random.sample], [for i in range(k)] on a
    copy of the population, on the indices still to visit: the selected item
    leaves the pool, and the last item not yet selected moves into its
    place. *)
Fixpoint sample_loop (n : nat) (range : list nat) (pool : str) : M str :=
  match range with
  | [] => mret []
  | i :: range' =>
      j ← randbelow (n - i);
      item ← getitem pool j;
      last ← getitem pool (n - i - 1);
      result ← sample_loop n range' (<[j:=last]> pool);
      mret (item :: result)
  end.

(** [j = randbelow(n)] and the loop [while j in selected: j = randbelow(n)]
    of the second selection loop: the first draw that is not in [selected].
    The loop does not exit when no draw to come is out of [selected], that is
    when the sequence ends on draws in [selected] and 0 is in it. *)
Fixpoint draw_fresh (n : nat) (selected : list nat) (g : state)
    : outcome nat * state :=
  match g with
  | [] =>
      if bool_decide (0 ∈ selected) then (Loops, []) else (Returned 0, [])
  | x :: g' =>
      if bool_decide (x mod n ∈ selected)
      then draw_fresh n selected g'
      else (Returned (x mod n), g')
  end.

(** The second selection loop of [random.sample], [for i in range(k)] on
    the population itself, on the indices still to visit and the set of the
    positions selected so far. *)
Fixpoint sample_set_loop (n : nat) (range : list nat) (population : str)
    (selected : list nat) : M str :=
  match range with
  | [] => mret []
  | _ :: range' =>
      j ← draw_fresh n selected;
      item ← getitem population j;
      result ← sample_set_loop n range' population (j :: selected);
      mret (item :: result)
  end.

(** [ceil(log(x, 4))] for an [x] that is no power of 4, as [k * 3] is: the
    least [e] with [x <= 4 ** e].  (The library takes the logarithm on
    floats.) *)
Definition ceil_log4 (x : nat) : nat := (Nat.log2_up x + 1) / 2.

(** [setsize], the population size up to which the first loop runs. *)
Definition setsize (k : nat) : nat :=
  if decide (5 < k) then 21 + 4 ^ ceil_log4 (k * 3) else 21.

(** [random.sample(population, k)]. *)
Definition sample (population : str) (k : Z) : M str :=
  let n := length population in
  if bool_decide (0 ≤ k ∧ k ≤ Z.of_nat n)%Z
  then
    if decide (n ≤ setsize (Z.to_nat k))
    then sample_loop n (seq 0 (Z.to_nat k)) population
    else sample_set_loop n (seq 0 (Z.to_nat k)) population []
  else raise "ValueError".

End random.

(** ** PasswordGenerator *)

Module PasswordGenerator.

(** [random.choice(charset) for i in range(length)], joined. *)
Fixpoint choices (charset : str) (range : list nat) : random.M str :=
  match range with
  | [] => mret []
  | _ :: range' =>
      c ← random.choice charset;
      s ← choices charset range';
      mret (c :: s)
  end.

Definition generate_password (length : Z) (unique_chars : bool)
    (charset : str) : random.M str :=
  if unique_chars then random.sample charset length
  else choices charset (seq 0 (Z.to_nat length)).

End PasswordGenerator.

(** ** PasswordRulesValidator *)

Module PasswordRulesValidator.

(** [error] is [None] until a validation fails. *)
Record t : Type := Build { error : option string }.

Definition init : t := Build None.

Definition validate_rules (self : t) (length : Z) (unique : bool)
    (charset : str) : bool * t :=
  if decide (List.length charset = 0)
  then (false, Build (Some "A charset is empty."))
  else if unique && bool_decide (length > Z.of_nat (List.length charset))%Z
  then (false, Build (Some "The charset is too short."))
  else (true, self).

End PasswordRulesValidator.

(** ** The strength rules *)

Module PresentTwoOtherCharsRule.

Definition is_satisfied (password : str) : bool :=
  existsb (λ char, bool_decide (count char password < length password))
    password.

End PresentTwoOtherCharsRule.

Module PresentCharsubsetsRule.

(** The inner loop [for i in range(0, len(self.charsubsets))], for one
    character of the password.  Every [i] of the range is an index of
    [charsubsets]; outside of it there is nothing to mark. *)
Fixpoint mark (charsubsets : list str) (char : char) (range : list nat)
    (present_charsubsets : list bool) : list bool :=
  match range with
  | [] => present_charsubsets
  | i :: range' =>
      mark charsubsets char range'
        (match charsubsets !! i with
         | Some charsubset =>
             if bool_decide (char ∈ charsubset)
             then <[i:=true]> present_charsubsets
             else present_charsubsets
         | None => present_charsubsets
         end)
  end.

(** The outer loop [for char in password]. *)
Fixpoint scan (charsubsets : list str) (password : str)
    (present_charsubsets : list bool) : list bool :=
  match password with
  | [] => present_charsubsets
  | char :: password' =>
      scan charsubsets password'
        (mark charsubsets char (seq 0 (length charsubsets))
           present_charsubsets)
  end.

(** [l.count(True)]. *)
Definition count_True (l : list bool) : nat :=
  length (filter (λ b, b = true) l).

Definition is_satisfied (charsubsets : list str)
    (present_charsubsets_min : Z) (password : str) : bool :=
  let present_charsubsets :=
    scan charsubsets password (replicate (length charsubsets) false) in
  if bool_decide
       (Z.of_nat (count_True present_charsubsets) >= present_charsubsets_min)%Z
  then true else false.

End PresentCharsubsetsRule.

Module MinimumLengthRule.

Definition is_satisfied (min_length : Z) (password : str) : bool :=
  bool_decide (Z.of_nat (length password) >= min_length)%Z.

End MinimumLengthRule.

(** The objects of the three rule classes, and the call [rule.is_satisfied]
    on any of them. *)
Inductive StrengthRule : Type :=
  | MinimumLength (min_length : Z)
  | PresentTwoOtherChars
  | PresentCharsubsets (charsubsets : list str) (present_charsubsets_min : Z).

Definition is_satisfied (rule : StrengthRule) (password : str) : bool :=
  match rule with
  | MinimumLength min_length =>
      MinimumLengthRule.is_satisfied min_length password
  | PresentTwoOtherChars => PresentTwoOtherCharsRule.is_satisfied password
  | PresentCharsubsets charsubsets present_charsubsets_min =>
      PresentCharsubsetsRule.is_satisfied charsubsets present_charsubsets_min
        password
  end.

(** ** PasswordStrengthCounter *)

(** The constants of the [string] module. *)
Definition ascii_lowercase : str := lit "abcdefghijklmnopqrstuvwxyz".
Definition ascii_uppercase : str := lit "ABCDEFGHIJKLMNOPQRSTUVWXYZ".
Definition digits : str := lit "0123456789".
Definition punctuation : str :=
  lit "!" ++ [34%N] ++ lit "#$%&'()*+,-./:;<=>?@[\]^_`{|}~".

Module PasswordStrengthCounter.

Record t : Type := Build { rules : list (StrengthRule * float) }.

Definition init : t :=
  let charsubsets :=
    [ascii_lowercase; ascii_uppercase; digits; punctuation] in
  Build [
    (MinimumLength 1, 20.0%float);
    (MinimumLength 8, 20.0%float);
    (PresentTwoOtherChars, 20.0%float);
    (PresentCharsubsets charsubsets 2, 20.0%float);
    (PresentCharsubsets charsubsets 3, 20.0%float)
  ].

(** The loop [for rule, weight in self.rules] with its [break]. *)
Fixpoint count_loop (rules : list (StrengthRule * float)) (password : str)
    (total_weight : float) : float :=
  match rules with
  | [] => total_weight
  | (rule, weight) :: rules' =>
      if is_satisfied rule password
      then count_loop rules' password (total_weight + weight)%float
      else total_weight
  end.

Definition count_strength (self : t) (password : str) : float :=
  (count_loop (rules self) password 0.0 / 100.0)%float.

End PasswordStrengthCounter.

(** ** PasswordStrengthWidget *)

Module PasswordStrengthWidget.

(** The colours of [QtCore.Qt] that the widget paints with. *)
Inductive GlobalColor : Type := white | red | yellow | blue | green.

Record t : Type := Build { strength : float }.

(** [__init__], whose [strength] defaults to [0.0]. *)
Definition init (strength : float) : t := Build strength.

(** [set_strength]; the repaint that follows shows the new state and
    changes none of it. *)
Definition set_strength (self : t) (strength : float) : t := Build strength.

Definition get_color_for_strength (self : t) : GlobalColor :=
  if (strength self <=? 0.4)%float then red
  else if (strength self <=? 0.6)%float then yellow
  else if (strength self <=? 0.8)%float then blue
  else green.

End PasswordStrengthWidget.

(** ** PasswordGeneratorWidget

    The window, as the values that its slots read and write: the objects
    that it owns, the contents of the input widgets, the text of the result
    field and the strength widget.  [PasswordGenerator] has no field. *)

Module PasswordGeneratorWidget.

Record t : Type := Build {
  password_rules_validator : PasswordRulesValidator.t;
  password_strength_counter : PasswordStrengthCounter.t;
  password_length_spinbox : Z;
  password_unique_check : bool;
  lowercase_check : bool;
  uppercase_check : bool;
  digits_check : bool;
  punctuation_check : bool;
  include_chars_edit : str;
  exclude_chars_edit : str;
  result_password_edit : str;
  password_strength_widget : PasswordStrengthWidget.t
}.

(** [QtGui.QMessageBox.critical(self, title, text)]. *)
Inductive message_box : Type :=
  | critical (title : string) (text : option string).

Section Slots.
Variable join_set : str → str.

(** The method [build_charset] of the window. *)
Definition widget_build_charset (self : t) : str :=
  let charset_builder := CharsetBuilder.init in
  let charset_builder :=
    if lowercase_check self
    then CharsetBuilder.include_chars charset_builder ascii_lowercase
    else charset_builder in
  let charset_builder :=
    if uppercase_check self
    then CharsetBuilder.include_chars charset_builder ascii_uppercase
    else charset_builder in
  let charset_builder :=
    if digits_check self
    then CharsetBuilder.include_chars charset_builder digits
    else charset_builder in
  let charset_builder :=
    if punctuation_check self
    then CharsetBuilder.include_chars charset_builder punctuation
    else charset_builder in
  let include_chars := include_chars_edit self in
  let charset_builder :=
    CharsetBuilder.include_chars charset_builder include_chars in
  let exclude_chars := exclude_chars_edit self in
  let charset_builder :=
    CharsetBuilder.exclude_chars charset_builder exclude_chars in
  (CharsetBuilder.build join_set charset_builder).1.

(** The slot of the Generate button: the window after it, and the message
    box that it has shown, if any. *)
Definition on_generate_password (self : t)
    : random.M (t * option message_box) :=
  let length := password_length_spinbox self in
  let unique := password_unique_check self in
  let charset := widget_build_charset self in
  let (valid, validator) :=
    PasswordRulesValidator.validate_rules (password_rules_validator self)
      length unique charset in
  if valid then
    password ← PasswordGenerator.generate_password length unique charset;
    let strength :=
      PasswordStrengthCounter.count_strength (password_strength_counter self)
        password in
    mret (Build validator (password_strength_counter self)
            (password_length_spinbox self) (password_unique_check self)
            (lowercase_check self) (uppercase_check self)
            (digits_check self) (punctuation_check self)
            (include_chars_edit self) (exclude_chars_edit self)
            password
            (PasswordStrengthWidget.set_strength
               (password_strength_widget self) strength),
          None)
  else
    let error := PasswordRulesValidator.error validator in
    mret (Build validator (password_strength_counter self)
            (password_length_spinbox self) (password_unique_check self)
            (lowercase_check self) (uppercase_check self)
            (digits_check self) (punctuation_check self)
            (include_chars_edit self) (exclude_chars_edit self)
            (result_password_edit self) (password_strength_widget self),
          Some (critical "I'm sorry" error)).

End Slots.

End PasswordGeneratorWidget.

(** ** Sequences of calls *)

(** Calls on a builder, [build()] among them. *)
Inductive builder_op : Type :=
  | Call (c : CharsetBuilder.call)
  | BuildCall.

Definition do_op (join_set : str → str) (self : CharsetBuilder.t)
    (op : builder_op) : CharsetBuilder.t :=
  match op with
  | Call c => CharsetBuilder.do_call self c
  | BuildCall => (CharsetBuilder.build join_set self).2
  end.

Definition run_ops (join_set : str → str) (ops : list builder_op)
    : CharsetBuilder.t :=
  foldl (do_op join_set) CharsetBuilder.init ops.

(** The [include_chars] and [exclude_chars] calls among them. *)
Fixpoint calls_of (ops : list builder_op) : list CharsetBuilder.call :=
  match ops with
  | [] => []
  | Call c :: ops' => c :: calls_of ops'
  | BuildCall :: ops' => calls_of ops'
  end.

(** The arguments of a [validate_rules] call. *)
Record request : Type := Request {
  request_length : Z;
  request_unique : bool;
  request_charset : str
}.

Definition validate (self : PasswordRulesValidator.t) (r : request)
    : bool * PasswordRulesValidator.t :=
  PasswordRulesValidator.validate_rules self (request_length r)
    (request_unique r) (request_charset r).

(** The validator after a sequence of calls. *)
Definition validate_all (self : PasswordRulesValidator.t)
    (requests : list request) : PasswordRulesValidator.t :=
  foldl (λ v r, (validate v r).2) self requests.

(** ** Notions of the statements *)

(** A character class is represented in a password when one of its
    characters occurs in the password. *)
Definition represented (password charsubset : str) : Prop :=
  ∃ c, c ∈ password ∧ c ∈ charsubset.

#[global] Instance represented_dec (password charsubset : str) :
  Decision (represented password charsubset).
Proof.
  refine (cast_if (decide (Exists (λ c, c ∈ charsubset) password)));
    unfold represented; rewrite Exists_exists in *; done.
Defined.

(** The rules of a ladder up to, and without, the first one that the
    password does not satisfy. *)
Fixpoint satisfied_prefix (rules : list (StrengthRule * float))
    (password : str) : list (StrengthRule * float) :=
  match rules with
  | [] => []
  | (rule, weight) :: rules' =>
      if is_satisfied rule password
      then (rule, weight) :: satisfied_prefix rules' password
      else []
  end.

(** The sum of weights, taken from the left as the loop takes it. *)
Definition total (weights : list float) : float :=
  foldl PrimFloat.add 0.0%float weights.

(** The four classes of the counter, and how many of them a password
    represents. *)
Definition charsubsets : list str :=
  [ascii_lowercase; ascii_uppercase; digits; punctuation].

Definition classes_present (password : str) : nat :=
  length (filter (represented password) charsubsets).

(** How many rules of the counter a password passes before the first one
    that it fails. *)
Definition rules_passed (password : str) : nat :=
  length
    (satisfied_prefix
       (PasswordStrengthCounter.rules PasswordStrengthCounter.init) password).

(** The message that a request leaves in a fresh validator, if any. *)
Definition failure (r : request) : option string :=
  PasswordRulesValidator.error (validate PasswordRulesValidator.init r).2.

(** The last message of a sequence, or [error] when there is none. *)
Fixpoint last_failure (error : option string) (requests : list request)
    : option string :=
  match requests with
  | [] => error
  | r :: requests' =>
      last_failure
        (match failure r with Some m => Some m | None => error end)
        requests'
  end.

(** The characters that the window offers: those of the classes that are
    checked and those of the field of custom characters. *)
Definition offered (self : PasswordGeneratorWidget.t) (c : char) : Prop :=
  (PasswordGeneratorWidget.lowercase_check self = true ∧ c ∈ ascii_lowercase)
  ∨ (PasswordGeneratorWidget.uppercase_check self = true
     ∧ c ∈ ascii_uppercase)
  ∨ (PasswordGeneratorWidget.digits_check self = true ∧ c ∈ digits)
  ∨ (PasswordGeneratorWidget.punctuation_check self = true
     ∧ c ∈ punctuation)
  ∨ c ∈ PasswordGeneratorWidget.include_chars_edit self.

(** A window to run the slots on: lowercase letters and digits checked,
    ["#a"] as custom characters, ["abc0"] excluded, six unique characters
    asked. *)
Definition example_window : PasswordGeneratorWidget.t :=
  PasswordGeneratorWidget.Build PasswordRulesValidator.init
    PasswordStrengthCounter.init 6 true true false true false
    (lit "#a") (lit "abc0") [] (PasswordStrengthWidget.init 0.0%float).

(** The positions below [n] that the draws to come name, each once. *)
Definition fresh_positions (n : nat) (g : random.state) : list nat :=
  remove_dups ((λ x, x mod n) <$> g).

(** Draws on which [random.sample] of [k] among [n] gets to its end: the
    first loop always does; the second does when the draws to come name [k]
    different positions. *)
Definition draws_suffice (n k : nat) (g : random.state) : Prop :=
  n ≤ random.setsize k ∨ k ≤ length (fresh_positions n g).

(** A window that makes [random.sample] run its second loop: lowercase
    letters only, two unique characters asked. *)
Definition letters_window : PasswordGeneratorWidget.t :=
  PasswordGeneratorWidget.Build PasswordRulesValidator.init
    PasswordStrengthCounter.init 2 true true false false false
    [] [] [] (PasswordStrengthWidget.init 0.0%float).

(** * Properties *)

(** ** CharsetBuilder *)

Section CharsetBuilder_facts.
Import CharsetBuilder.

Lemma build_loop_filter (excluded rest charset : str) :
  build_loop excluded rest charset
  = charset ++ filter (λ c, c ∉ excluded) rest.
Proof.
  revert charset.
  induction rest as [|char rest IH]; intros charset; cbn [build_loop].
  - by rewrite app_nil_r.
  - rewrite IH, filter_cons.
    destruct (decide (char ∈ excluded)) as [Hin|Hout].
    + rewrite bool_decide_eq_true_2 by done. simpl.
      by rewrite decide_False by tauto.
    + rewrite bool_decide_eq_false_2 by done. simpl.
      rewrite decide_True by done. by rewrite <- app_assoc.
Qed.

Lemma elem_of_included_run (calls : list call) (c : char) :
  c ∈ included_chars (run calls)
  ↔ ∃ chars, Include chars ∈ calls ∧ c ∈ chars.
Proof.
  unfold run. generalize init.(included_chars), init.(excluded_chars).
  intros inc exc.
  assert (∀ self,
    c ∈ included_chars (foldl do_call self calls)
    ↔ c ∈ included_chars self ∨ ∃ chars, Include chars ∈ calls ∧ c ∈ chars)
    as Hgen.
  { induction calls as [|[chars|chars] calls IH]; intros self; simpl.
    - split; [by left|]. intros [?|(chars & Hin & _)]; [done|].
      by apply elem_of_nil in Hin.
    - rewrite IH. simpl. rewrite elem_of_app. split.
      + intros [[?|?]|(chars' & ? & ?)]; [by left| |].
        * right. exists chars. split; [left|done].
        * right. exists chars'. split; [by right|done].
      + intros [?|(chars' & Hin & ?)]; [by left; left|].
        apply elem_of_cons in Hin as [[= ->]|?]; [by left; right|].
        right. by exists chars'.
    - rewrite IH. simpl. split.
      + intros [?|(chars' & ? & ?)]; [by left|].
        right. exists chars'. split; [by right|done].
      + intros [?|(chars' & Hin & ?)]; [by left|].
        apply elem_of_cons in Hin as [[=]|?].
        right. by exists chars'. }
  rewrite Hgen. simpl. split; [|by right].
  intros [Hnil|?]; [|done]. by apply elem_of_nil in Hnil.
Qed.

Lemma elem_of_excluded_run (calls : list call) (c : char) :
  c ∈ excluded_chars (run calls)
  ↔ ∃ chars, Exclude chars ∈ calls ∧ c ∈ chars.
Proof.
  unfold run.
  assert (∀ self,
    c ∈ excluded_chars (foldl do_call self calls)
    ↔ c ∈ excluded_chars self ∨ ∃ chars, Exclude chars ∈ calls ∧ c ∈ chars)
    as Hgen.
  { induction calls as [|[chars|chars] calls IH]; intros self; simpl.
    - split; [by left|]. intros [?|(chars & Hin & _)]; [done|].
      by apply elem_of_nil in Hin.
    - rewrite IH. simpl. split.
      + intros [?|(chars' & ? & ?)]; [by left|].
        right. exists chars'. split; [by right|done].
      + intros [?|(chars' & Hin & ?)]; [by left|].
        apply elem_of_cons in Hin as [[=]|?].
        right. by exists chars'.
    - rewrite IH. simpl. rewrite elem_of_app. split.
      + intros [[?|?]|(chars' & ? & ?)]; [by left| |].
        * right. exists chars. split; [left|done].
        * right. exists chars'. split; [by right|done].
      + intros [?|(chars' & Hin & ?)]; [by left; left|].
        apply elem_of_cons in Hin as [[= ->]|?]; [by left; right|].
        right. by exists chars'. }
  rewrite Hgen. simpl. split; [|by right].
  intros [Hnil|?]; [|done]. by apply elem_of_nil in Hnil.
Qed.

Variable join_set : str → str.
Hypothesis join_set_order : set_order join_set.

Lemma build_NoDup (self : t) : NoDup (build join_set self).1.
Proof.
  simpl. rewrite build_loop_filter. simpl.
  apply NoDup_filter, join_set_order.
Qed.

Lemma elem_of_build (self : t) (c : char) :
  c ∈ (build join_set self).1
  ↔ c ∈ included_chars self ∧ c ∉ excluded_chars self.
Proof.
  simpl. rewrite build_loop_filter. simpl.
  rewrite list_elem_of_filter.
  rewrite !(proj2 (join_set_order _)). tauto.
Qed.

Lemma build_fields (self : t) (c : char) :
  (c ∈ included_chars (build join_set self).2 ↔ c ∈ included_chars self)
  ∧ (c ∈ excluded_chars (build join_set self).2 ↔ c ∈ excluded_chars self).
Proof. simpl. by rewrite !(proj2 (join_set_order _)). Qed.

Lemma join_set_nil : join_set [] = [].
Proof.
  destruct (join_set []) as [|c s] eqn:E; [done|].
  assert (c ∈ join_set []) as Hin by (rewrite E; left).
  apply (proj2 (join_set_order [])) in Hin. by apply elem_of_nil in Hin.
Qed.

(** C4. After any sequence of [include_chars] and [exclude_chars] calls on
    a fresh builder, [build()] returns a string (it has no failing path)
    without duplicate characters, which holds every included character that
    is not in the excluded accumulator and no character of the excluded
    accumulator, be it the field before the call or the deduplicated field
    that [build] leaves.  In terms of the calls: a character is in the
    result iff some [include_chars] call had it and no [exclude_chars] call
    had it.  The empty string is a result (that of a fresh builder). *)
Theorem build_charset (calls : list call) :
  let self := run calls in
  let charset := (build join_set self).1 in
  NoDup charset
  ∧ (∀ c, c ∈ included_chars self → c ∉ excluded_chars self → c ∈ charset)
  ∧ (∀ c, c ∈ charset →
       (c ∉ excluded_chars self)
       ∧ (c ∉ excluded_chars (build join_set self).2))
  ∧ (∀ c, c ∈ charset ↔
       (∃ chars, Include chars ∈ calls ∧ c ∈ chars)
       ∧ ¬ (∃ chars, Exclude chars ∈ calls ∧ c ∈ chars))
  ∧ (build join_set (run [])).1 = [].
Proof.
  intros self charset. subst charset.
  split; [apply build_NoDup|].
  split; [intros c ? ?; by apply elem_of_build|].
  split.
  { intros c [_ Hout]%elem_of_build.
    split; [done|]. by rewrite (proj2 (build_fields self c)). }
  split.
  { intros c. rewrite elem_of_build. subst self.
    by rewrite elem_of_included_run, elem_of_excluded_run. }
  simpl. by rewrite join_set_nil.
Qed.

(** C5. [build()] is idempotent as far as the set of characters goes: a
    second call, with no [include_chars] or [exclude_chars] call in
    between, returns a string with the same characters as the first, each
    once (the two strings are permutations of each other), although the
    first call has replaced both accumulator fields by their deduplicated
    form. *)
Theorem build_idempotent (self : t) :
  let first := build join_set self in
  let second := build join_set first.2 in
  (∀ c, c ∈ first.1 ↔ c ∈ second.1)
  ∧ first.1 ≡ₚ second.1
  ∧ first.2 = Build (join_set (included_chars self))
                    (join_set (excluded_chars self)).
Proof.
  intros first second.
  assert (∀ c, c ∈ first.1 ↔ c ∈ second.1) as Hsame.
  { intros c. subst first second. rewrite !elem_of_build.
    by rewrite (proj1 (build_fields self c)), (proj2 (build_fields self c)). }
  split; [done|]. split; [|done].
  apply NoDup_Permutation; [apply build_NoDup..|done].
Qed.

End CharsetBuilder_facts.

Lemma remove_dups_order : set_order remove_dups.
Proof.
  intros s. split; [apply NoDup_remove_dups|].
  intros c. apply elem_of_remove_dups.
Qed.

Lemma build_charset_witness :
  set_order remove_dups
  ∧ NoDup (CharsetBuilder.build remove_dups
             (CharsetBuilder.run
                [CharsetBuilder.Include (lit "abca");
                 CharsetBuilder.Exclude (lit "bb")])).1.
Proof.
  split; [exact remove_dups_order|].
  exact (proj1 (build_charset remove_dups remove_dups_order
                  [CharsetBuilder.Include (lit "abca");
                   CharsetBuilder.Exclude (lit "bb")])).
Defined.

Lemma build_idempotent_witness :
  set_order remove_dups
  ∧ ∀ c,
      c ∈ (CharsetBuilder.build remove_dups
             (CharsetBuilder.Build (lit "abca") (lit "bb"))).1
      ↔ c ∈ (CharsetBuilder.build remove_dups
               (CharsetBuilder.build remove_dups
                  (CharsetBuilder.Build (lit "abca") (lit "bb"))).2).1.
Proof.
  split; [exact remove_dups_order|].
  exact (proj1 (build_idempotent remove_dups remove_dups_order
                  (CharsetBuilder.Build (lit "abca") (lit "bb")))).
Defined.

(** The scenario of the specification: [include_chars("ab")],
    [exclude_chars("b")], then [build()]. *)
Example build_ab_minus_b :
  (CharsetBuilder.build remove_dups
     (CharsetBuilder.run
        [CharsetBuilder.Include (lit "ab"); CharsetBuilder.Exclude (lit "b")])).1
  = lit "a".
Proof. reflexivity. Qed.

(** ** PasswordRulesValidator *)

Section PasswordRulesValidator_facts.
Import PasswordRulesValidator.

(** C2. [validate_rules] fails with the message of the empty charset
    whenever the charset has no character, whatever the length and the
    [unique] flag (so also when the charset is too short for a unique
    password: emptiness is tested first); it fails with the message of the
    charset too short whenever the charset is not empty, [unique] holds and
    [length > len(charset)]; and it returns [True] in every other case. *)
Theorem validate_rules_cases (self : t) (length : Z) (unique : bool)
    (charset : str) :
  let n := List.length charset in
  (n = 0 →
     validate_rules self length unique charset
     = (false, Build (Some "A charset is empty.")))
  ∧ (n ≠ 0 → unique = true → (length > Z.of_nat n)%Z →
     validate_rules self length unique charset
     = (false, Build (Some "The charset is too short.")))
  ∧ (n ≠ 0 → ¬ (unique = true ∧ (length > Z.of_nat n)%Z) →
     validate_rules self length unique charset = (true, self)).
Proof.
  intros n. subst n. unfold validate_rules.
  destruct (decide (List.length charset = 0)) as [Hn|Hn].
  - split; [done|]. split; intros; done.
  - split; [done|]. split.
    + intros _ -> Hlen. by rewrite bool_decide_eq_true_2.
    + intros _ Hnot. destruct unique; simpl; [|done].
      rewrite bool_decide_eq_false_2; [done|]. intros ?. by apply Hnot.
Qed.

(** C10. A validation that returns [True] leaves the validator as it was:
    [self.error] is not cleared.  So after a validation that failed, a
    validation that succeeds on the same validator still shows the message
    of the earlier failure. *)
Theorem validate_rules_stale_error (self : t) (length1 length2 : Z)
    (unique1 unique2 : bool) (charset1 charset2 : str) :
  let failed := validate_rules self length1 unique1 charset1 in
  let passed := validate_rules failed.2 length2 unique2 charset2 in
  ((validate_rules self length2 unique2 charset2).1 = true →
   (validate_rules self length2 unique2 charset2).2 = self)
  ∧ (failed.1 = false →
     passed.1 = true →
     error passed.2 = error failed.2
     ∧ (error passed.2 = Some "A charset is empty."
        ∨ error passed.2 = Some "The charset is too short.")).
Proof.
  intros failed passed.
  assert (∀ v, (validate_rules v length2 unique2 charset2).1 = true →
               (validate_rules v length2 unique2 charset2).2 = v) as Hkeep.
  { intros v. unfold validate_rules. by repeat case_match. }
  split; [apply Hkeep|].
  intros Hfailed Hpassed. subst passed.
  rewrite (Hkeep _ Hpassed). split; [done|].
  subst failed. revert Hfailed. unfold validate_rules.
  repeat case_match; simpl; intros; try done; auto.
Qed.

End PasswordRulesValidator_facts.

Lemma validate_rules_cases_witness :
  PasswordRulesValidator.validate_rules PasswordRulesValidator.init 5 true
    (lit "ab")
  = (false, PasswordRulesValidator.Build (Some "The charset is too short.")).
Proof.
  apply (validate_rules_cases PasswordRulesValidator.init 5 true (lit "ab"));
    [simpl; lia | reflexivity | simpl; lia].
Defined.

Lemma validate_rules_stale_error_witness :
  PasswordRulesValidator.error
    (PasswordRulesValidator.validate_rules
       (PasswordRulesValidator.validate_rules PasswordRulesValidator.init
          5 false []).2
       5 true (lit "abcdef")).2
  = Some "A charset is empty.".
Proof.
  etrans.
  - apply (proj2 (validate_rules_stale_error PasswordRulesValidator.init 5 5
                    false true [] (lit "abcdef"))); reflexivity.
  - reflexivity.
Defined.

(** ** Strings *)

Lemma submseteq_NoDup (s1 s2 : str) : s1 ⊆+ s2 → NoDup s2 → NoDup s1.
Proof.
  intros [k Hk]%submseteq_Permutation. rewrite Hk, NoDup_app. tauto.
Qed.




Lemma count_le_length (c : char) (s : str) : count c s ≤ length s.
Proof. induction s as [|x s IH]; simpl; [done|]. case_decide; lia. Qed.

Lemma count_0 (c : char) (s : str) : count c s = 0 ↔ c ∉ s.
Proof.
  induction s as [|x s IH]; simpl.
  - split; [|done]. intros _. apply not_elem_of_nil.
  - rewrite not_elem_of_cons. case_decide as Hx.
    + subst. split; [lia|]. by intros [? _].
    + simpl. rewrite IH. split; [|by intros [_ ?]].
      intros ?. split; [|done]. by intros ->.
Qed.

(** ** The [random] module *)

Section random_facts.
Import random.

Lemma randbelow_lt (n : nat) (g : state) :
  0 < n → ∃ j g', randbelow n g = (Returned j, g') ∧ j < n.
Proof.
  intros Hn. destruct g as [|x g]; simpl.
  - by exists 0, [].
  - exists (x mod n), g. split; [done|]. apply Nat.mod_upper_bound. lia.
Qed.

Lemma bind_returned {A B} (m : M A) (f : A → M B) (a : A) (g g' : state) :
  m g = (Returned a, g') → (m ≫= f) g = f a g'.
Proof. unfold mbind, M_bind. by intros ->. Qed.

Lemma getitem_lookup (seq : str) (i : nat) (c : char) (g : state) :
  seq !! i = Some c → getitem seq i g = (Returned c, g).
Proof. unfold getitem. by intros ->. Qed.

(** [random.choice] on a non-empty string returns one of its characters. *)
Lemma choice_returns (seq : str) (g : state) :
  seq ≠ [] → ∃ c g', choice seq g = (Returned c, g') ∧ c ∈ seq.
Proof.
  intros Hne. unfold choice.
  destruct (decide (length seq = 0)) as [Hlen|Hlen].
  { by apply nil_length_inv in Hlen. }
  destruct (randbelow_lt (length seq) g) as (j & g' & Hj & Hlt); [lia|].
  destruct (lookup_lt_is_Some_2 seq j Hlt) as [c Hc].
  exists c, g'. split.
  - rewrite (bind_returned _ _ _ _ _ Hj). by apply getitem_lookup.
  - by eapply list_elem_of_lookup_2.
Qed.

(** One step of the selection: the item taken out and the pool that is
    left hold what the pool held. *)
Lemma pool_step (pool : str) (m j : nat) (item last : char) :
  0 < m → m ≤ length pool → j < m →
  pool !! j = Some item → pool !! (m - 1) = Some last →
  item :: take (m - 1) (<[j:=last]> pool) ≡ₚ take m pool.
Proof.
  intros Hm Hlen Hj Hitem Hlast.
  assert (take m pool = take (m - 1) pool ++ [last]) as ->.
  { replace m with (S (m - 1)) at 1 by lia. by erewrite take_S_r. }
  destruct (decide (j = m - 1)) as [->|Hne].
  - rewrite take_insert_ge by lia.
    assert (item = last) as -> by congruence.
    by rewrite Permutation_cons_append.
  - rewrite take_insert_lt by lia.
    assert (take (m - 1) pool !! j = Some item) as Htake.
    { rewrite lookup_take_lt by lia. done. }
    rewrite <- (take_drop_middle _ _ _ Htake) at 2.
    rewrite <- (take_drop_middle _ _ _ Htake) at 1.
    assert (length (take j (take (m - 1) pool)) = j) as Hj'.
    { rewrite !length_take. lia. }
    rewrite insert_app_r_alt by lia.
    rewrite Hj', Nat.sub_diag. simpl.
    rewrite <- !app_assoc. simpl.
    rewrite <- !Permutation_middle.
    by rewrite app_nil_r.
Qed.

(** The selection loop from index [i] on, [k] rounds, on a pool of [n]
    items of which the first [n - i] are still to select from: it returns
    [k] of these, each taken at most as often as the pool holds it. *)
Lemma sample_loop_returns (n k i : nat) (pool : str) (g : state) :
  length pool = n → i + k ≤ n →
  ∃ result g',
    sample_loop n (seq i k) pool g = (Returned result, g')
    ∧ length result = k
    ∧ result ⊆+ take (n - i) pool.
Proof.
  revert i pool g.
  induction k as [|k IH]; intros i pool g Hlen Hik; simpl.
  { exists [], g. split; [done|]. split; [done|]. apply submseteq_nil_l. }
  destruct (randbelow_lt (n - i) g) as (j & g1 & Hj & Hlt); [lia|].
  destruct (lookup_lt_is_Some_2 pool j) as [item Hitem]; [lia|].
  destruct (lookup_lt_is_Some_2 pool (n - i - 1)) as [last Hlast]; [lia|].
  destruct (IH (S i) (<[j:=last]> pool) g1) as (result & g' & Hrun & Hk & Hsub).
  { by rewrite length_insert. }
  { lia. }
  exists (item :: result), g'. split; [|split].
  - rewrite (bind_returned _ _ _ _ _ Hj).
    rewrite (bind_returned _ _ _ _ _ (getitem_lookup _ _ _ _ Hitem)).
    rewrite (bind_returned _ _ _ _ _ (getitem_lookup _ _ _ _ Hlast)).
    by rewrite (bind_returned _ _ _ _ _ Hrun).
  - simpl. by rewrite Hk.
  - rewrite <- (pool_step pool (n - i) j item last) by (done || lia).
    apply submseteq_skip.
    by replace (n - i - 1) with (n - S i) by lia.
Qed.

Lemma bind_raised {A B} (m : M A) (f : A → M B) (e : string)
    (g g' : state) :
  m g = (Raised e, g') → (m ≫= f) g = (Raised e, g').
Proof. unfold mbind, M_bind. by intros ->. Qed.

Lemma bind_loops {A B} (m : M A) (f : A → M B) (g g' : state) :
  m g = (Loops, g') → (m ≫= f) g = (Loops, g').
Proof. unfold mbind, M_bind. by intros ->. Qed.

(** The redraw loop is the loop of the source: a draw, and the loop again
    when the draw is in [selected]. *)
Lemma draw_fresh_step (n : nat) (selected : list nat) (g : state) :
  g ≠ [] ∨ 0 ∉ selected →
  draw_fresh n selected g
  = (j ← randbelow n;
     if bool_decide (j ∈ selected) then draw_fresh n selected else mret j) g.
Proof.
  intros Hg. unfold mbind, M_bind. destruct g as [|x g]; simpl.
  - destruct Hg as [?|Hg]; [done|]. by rewrite bool_decide_eq_false_2.
  - by destruct (bool_decide (x mod n ∈ selected)).
Qed.

(** It never raises: it loops for ever, or returns a position that is not
    in [selected]. *)
Lemma draw_fresh_cases (n : nat) (selected : list nat) (g : state) :
  0 < n →
  (draw_fresh n selected g).1 = Loops
  ∨ ∃ j g', draw_fresh n selected g = (Returned j, g')
            ∧ j < n ∧ j ∉ selected.
Proof.
  intros Hn. induction g as [|x g IH]; simpl.
  - case_bool_decide; [by left|]. right. by exists 0, [].
  - case_bool_decide; [done|]. right. exists (x mod n), g.
    split; [done|]. split; [|done]. apply Nat.mod_upper_bound. lia.
Qed.

(** The positions that the draws to come name out of [selected]. *)
Let fresh_left (n : nat) (selected : list nat) (g : state) : nat :=
  length (remove_dups (filter (λ j, j ∉ selected) ((λ x, x mod n) <$> g))).

Lemma draw_fresh_returns (n : nat) (selected : list nat) (g : state) :
  1 ≤ fresh_left n selected g →
  ∃ j g', draw_fresh n selected g = (Returned j, g')
          ∧ fresh_left n selected g ≤ S (fresh_left n (j :: selected) g').
Proof.
  unfold fresh_left. induction g as [|x g IH]; [simpl; lia|].
  rewrite fmap_cons, filter_cons. simpl.
  destruct (decide (x mod n ∈ selected)) as [Hin|Hout].
  - rewrite decide_False by tauto. rewrite bool_decide_eq_true_2 by done.
    apply IH.
  - rewrite decide_True by done. rewrite bool_decide_eq_false_2 by done.
    intros _. exists (x mod n), g. split; [done|].
    set (rest := (λ x, x mod n) <$> g).
    change (S (length ?l)) with (length (x mod n :: l)).
    apply submseteq_length, NoDup_submseteq; [apply NoDup_remove_dups|].
    intros j Hj. rewrite elem_of_remove_dups in Hj.
    destruct (decide (j = x mod n)) as [->|Hne]; [left|right].
    apply elem_of_cons in Hj as [?|Hj]; [done|].
    apply list_elem_of_filter in Hj as [? ?].
    rewrite elem_of_remove_dups, list_elem_of_filter. split; [|done].
    rewrite not_elem_of_cons. done.
Qed.

(** The items at different positions of a string, as a part of it. *)
Lemma items_submseteq (population result : str) (js : list nat) :
  NoDup js →
  Forall2 (λ c j, population !! j = Some c) result js →
  result ⊆+ population.
Proof.
  intros Hnd Hitems.
  set (item := λ j, default 0%N (population !! j)).
  assert (result = item <$> js) as ->.
  { induction Hitems as [|c j result js Hc _ IH]; [done|].
    apply NoDup_cons in Hnd as [_ Hnd]. simpl. f_equal; [|by apply IH].
    unfold item. by rewrite Hc. }
  assert (population = item <$> seq 0 (length population)) as Hpop.
  { apply list_eq. intros i. rewrite list_lookup_fmap.
    destruct (population !! i) as [c|] eqn:Hi.
    - rewrite lookup_seq_lt by by eapply lookup_lt_Some.
      simpl. unfold item. by rewrite Hi.
    - rewrite lookup_seq_ge; [done|]. by apply lookup_ge_None. }
  rewrite Hpop. apply fmap_submseteq.
  apply NoDup_submseteq; [done|].
  intros j Hj. apply elem_of_seq. split; [lia|]. simpl.
  apply list_elem_of_lookup in Hj as [i Hi].
  destruct (Forall2_lookup_r _ _ _ _ _ Hitems Hi) as (c & _ & Hc).
  by eapply lookup_lt_Some.
Qed.

(** The second selection loop never raises: it loops for ever, or returns
    as many items as it has rounds, from different positions that were not
    in [selected]. *)
Lemma sample_set_loop_cases (n : nat) (range : list nat) (population : str)
    (selected : list nat) (g : state) :
  length population = n → 0 < n →
  (sample_set_loop n range population selected g).1 = Loops
  ∨ ∃ result g' js,
      sample_set_loop n range population selected g = (Returned result, g')
      ∧ length result = length range
      ∧ NoDup js
      ∧ (∀ j, j ∈ js → j ∉ selected)
      ∧ Forall2 (λ c j, population !! j = Some c) result js.
Proof.
  intros Hlen Hn. revert selected g.
  induction range as [|i range IH]; intros selected g; cbn [sample_set_loop].
  { right. exists [], g, []. split; [done|]. split; [done|].
    split; [constructor|]. split; [|constructor].
    intros j Hj. by apply elem_of_nil in Hj. }
  destruct (draw_fresh_cases n selected g Hn)
    as [Hloop|(j & g1 & Hj & Hlt & Hout)].
  { left. destruct (draw_fresh n selected g) as [o g1] eqn:Hdraw.
    simpl in Hloop. subst o. by rewrite (bind_loops _ _ _ _ Hdraw). }
  destruct (lookup_lt_is_Some_2 population j) as [item Hitem]; [lia|].
  rewrite (bind_returned _ _ _ _ _ Hj).
  rewrite (bind_returned _ _ _ _ _ (getitem_lookup _ _ _ _ Hitem)).
  destruct (IH (j :: selected) g1)
    as [Hloop|(result & g' & js & Hrun & Hres & Hnd & Hsel & Hitems)].
  { left.
    destruct (sample_set_loop n range population (j :: selected) g1)
      as [o g2] eqn:Hrun.
    simpl in Hloop. subst o. by rewrite (bind_loops _ _ _ _ Hrun). }
  right. exists (item :: result), g', (j :: js).
  rewrite (bind_returned _ _ _ _ _ Hrun).
  split; [done|]. split; [simpl; by rewrite Hres|].
  split; [|split].
  - apply NoDup_cons. split; [|done].
    intros Hin. apply (Hsel j Hin). left.
  - intros j' [->|Hin]%elem_of_cons; [done|].
    intros Hin'. apply (Hsel j' Hin). by right.
  - by constructor.
Qed.

(** It gets to its end when the draws to come name as many positions out of
    [selected] as it has rounds. *)
Lemma sample_set_loop_ends (n : nat) (range : list nat) (population : str)
    (selected : list nat) (g : state) :
  length population = n → 0 < n →
  length range ≤ fresh_left n selected g →
  (sample_set_loop n range population selected g).1 ≠ Loops.
Proof.
  intros Hlen Hn. revert selected g.
  induction range as [|i range IH]; intros selected g Hfresh;
    cbn [sample_set_loop]; [done|].
  destruct (draw_fresh_returns n selected g) as (j & g1 & Hj & Hleft);
    [simpl in Hfresh; lia|].
  destruct (draw_fresh_cases n selected g Hn)
    as [Hloop|(j' & g1' & Hj' & Hlt & _)]; [by rewrite Hj in Hloop|].
  assert (j' = j) as -> by congruence.
  destruct (lookup_lt_is_Some_2 population j) as [item Hitem]; [lia|].
  rewrite (bind_returned _ _ _ _ _ Hj).
  rewrite (bind_returned _ _ _ _ _ (getitem_lookup _ _ _ _ Hitem)).
  specialize (IH (j :: selected) g1).
  destruct (sample_set_loop n range population (j :: selected) g1)
    as [[result| |] g2] eqn:Hrun.
  - by rewrite (bind_returned _ _ _ _ _ Hrun).
  - by rewrite (bind_raised _ _ _ _ _ Hrun).
  - exfalso. apply IH; [simpl in Hfresh; lia|done].
Qed.

Lemma ceil_log4_le (x : nat) : x ≤ 4 ^ ceil_log4 x.
Proof.
  unfold ceil_log4. change 4 with (2 ^ 2). rewrite <- Nat.pow_mul_r.
  destruct (decide (x ≤ 1)) as [Hx|Hx].
  - pose proof (Nat.pow_nonzero 2 (2 * ((Nat.log2_up x + 1) / 2))). lia.
  - etrans; [apply (Nat.log2_up_spec x); lia|].
    apply Nat.pow_le_mono_r; [done|].
    pose proof (Nat.div_mod (Nat.log2_up x + 1) 2).
    pose proof (Nat.mod_upper_bound (Nat.log2_up x + 1) 2). lia.
Qed.

(** [ceil_log4 x] is the least exponent [e] with [x <= 4 ** e]. *)
Lemma ceil_log4_least (x : nat) :
  1 < x → 4 ^ (ceil_log4 x - 1) < x ∧ x ≤ 4 ^ ceil_log4 x.
Proof.
  intros Hx. split; [|apply ceil_log4_le].
  unfold ceil_log4. change 4 with (2 ^ 2). rewrite <- Nat.pow_mul_r.
  pose proof (Nat.log2_up_spec x Hx) as [Hlow _].
  pose proof (Nat.log2_up_pos x Hx).
  eapply Nat.le_lt_trans; [|exact Hlow].
  apply Nat.pow_le_mono_r; [done|].
  pose proof (Nat.div_mod (Nat.log2_up x + 1) 2).
  pose proof (Nat.mod_upper_bound (Nat.log2_up x + 1) 2). lia.
Qed.

Example setsize_values :
  setsize 5 = 21 ∧ setsize 6 = 85 ∧ setsize 21 = 85 ∧ setsize 22 = 277.
Proof. repeat split; reflexivity. Qed.

(** A sample of the whole population runs the first loop. *)
Lemma le_setsize (n : nat) : n ≤ setsize n.
Proof.
  unfold setsize. case_decide; [|lia].
  pose proof (ceil_log4_le (n * 3)). lia.
Qed.

(** [random.sample] with [0 <= k <= len(population)] never raises: it loops
    for ever, or returns [k] items of the population, each taken at most as
    often as the population holds it. *)
Lemma sample_cases (population : str) (k : Z) (g : state) :
  (0 ≤ k ≤ Z.of_nat (length population))%Z →
  (sample population k g).1 = Loops
  ∨ ∃ result g',
      sample population k g = (Returned result, g')
      ∧ Z.of_nat (length result) = k
      ∧ result ⊆+ population.
Proof.
  intros Hk. unfold sample. rewrite bool_decide_eq_true_2 by done.
  case_decide as Hsize.
  - right.
    destruct (sample_loop_returns (length population) (Z.to_nat k) 0
                population g) as (result & g' & Hrun & Hlen & Hsub);
      [done|lia|].
    exists result, g'. split; [done|]. split; [lia|].
    rewrite Nat.sub_0_r, firstn_all in Hsub. done.
  - assert (0 < length population) as Hn by (unfold setsize in *; case_decide; lia).
    destruct (sample_set_loop_cases (length population)
                (seq 0 (Z.to_nat k)) population [] g eq_refl Hn)
      as [?|(result & g' & js & Hrun & Hlen & Hnd & _ & Hitems)];
      [by left|right].
    exists result, g'. split; [done|].
    split; [rewrite Hlen, length_seq; lia|].
    by eapply items_submseteq.
Qed.

Lemma filter_not_in_nil (l : list nat) : filter (λ j, j ∉ []) l = l.
Proof.
  induction l as [|j l IH]; [done|].
  rewrite filter_cons, decide_True by apply not_elem_of_nil. by f_equal.
Qed.

(** It returns on the draws that suffice. *)
Lemma sample_returns (population : str) (k : Z) (g : state) :
  (0 ≤ k ≤ Z.of_nat (length population))%Z →
  draws_suffice (length population) (Z.to_nat k) g →
  ∃ result g',
    sample population k g = (Returned result, g')
    ∧ Z.of_nat (length result) = k
    ∧ result ⊆+ population.
Proof.
  intros Hk Hdraws.
  destruct (sample_cases population k g Hk) as [Hloop|?]; [|done].
  exfalso. revert Hloop. unfold sample.
  rewrite bool_decide_eq_true_2 by done.
  case_decide as Hsize.
  - destruct (sample_loop_returns (length population) (Z.to_nat k) 0
                population g) as (result & g' & Hrun & _); [done|lia|].
    by rewrite Hrun.
  - destruct Hdraws as [?|Hfresh]; [done|].
    apply sample_set_loop_ends; [done|unfold setsize in *; case_decide; lia|].
    rewrite length_seq. unfold fresh_left, fresh_positions in *.
    by rewrite filter_not_in_nil.
Qed.

(** [random.sample] with [k] out of that range raises [ValueError] and
    draws nothing. *)
Lemma sample_raises (population : str) (k : Z) (g : state) :
  ¬ (0 ≤ k ≤ Z.of_nat (length population))%Z →
  sample population k g = (Raised "ValueError", g).
Proof. intros Hk. unfold sample. by rewrite bool_decide_eq_false_2. Qed.

End random_facts.

(** ** PasswordGenerator *)

Section PasswordGenerator_facts.
Import random PasswordGenerator.

Lemma choices_returns (charset : str) (range : list nat) (g : state) :
  charset ≠ [] →
  ∃ password g',
    choices charset range g = (Returned password, g')
    ∧ length password = length range
    ∧ ∀ c, c ∈ password → c ∈ charset.
Proof.
  intros Hne. revert g.
  induction range as [|i range IH]; intros g; simpl.
  { exists [], g. split; [done|]. split; [done|].
    intros c Hc. by apply elem_of_nil in Hc. }
  destruct (choice_returns charset g Hne) as (c & g1 & Hc & Hin).
  destruct (IH g1) as (s & g' & Hs & Hlen & Hall).
  exists (c :: s), g'. split; [|split].
  - rewrite (bind_returned _ _ _ _ _ Hc).
    by rewrite (bind_returned _ _ _ _ _ Hs).
  - simpl. by rewrite Hlen.
  - intros c' [->|?]%elem_of_cons; auto.
Qed.


(** C7. With [unique_chars] false, a non-empty charset and a positive
    [length], [generate_password] returns a string of exactly [length]
    characters, each one a character of the charset. *)
Theorem generate_password_repeating (length : Z) (charset : str)
    (g : state) :
  charset ≠ [] →
  (0 < length)%Z →
  ∃ password g',
    generate_password length false charset g = (Returned password, g')
    ∧ Z.of_nat (List.length password) = length
    ∧ ∀ c, c ∈ password → c ∈ charset.
Proof.
  intros Hne Hlen. simpl.
  destruct (choices_returns charset (seq 0 (Z.to_nat length)) g Hne)
    as (pw & g' & Hrun & Hpw & Hall).
  exists pw, g'. split; [done|]. split; [|done].
  rewrite Hpw, length_seq. lia.
Qed.

(** C3, as the code has it.  With [unique_chars] true and
    [length > len(charset)], [generate_password] returns no password: the
    [ValueError] of [random.sample] leaves the call, before any draw.  The
    program has no class [InsufficientCharset], and [generate_password] no
    guard of its own. *)
Theorem generate_password_too_long (length : Z) (charset : str)
    (g : state) :
  (length > Z.of_nat (List.length charset))%Z →
  generate_password length true charset g = (Raised "ValueError", g).
Proof. intros Hlen. simpl. apply sample_raises. lia. Qed.

End PasswordGenerator_facts.


Lemma generate_password_repeating_witness :
  ∃ password g',
    PasswordGenerator.generate_password 3 false (lit "ab") [7; 2; 8; 4]
    = (Returned password, g')
    ∧ Z.of_nat (length password) = 3%Z
    ∧ ∀ c, c ∈ password → c ∈ lit "ab".
Proof.
  apply (generate_password_repeating 3 (lit "ab") [7; 2; 8; 4]);
    [discriminate | lia].
Defined.

Lemma generate_password_too_long_witness :
  PasswordGenerator.generate_password 3 true (lit "ab") [7; 2; 9; 4]
  = (Raised "ValueError", [7; 2; 9; 4]).
Proof.
  apply (generate_password_too_long 3 (lit "ab") [7; 2; 9; 4]).
  simpl; lia.
Defined.

(** C3, as the specification has it, fails: on the charset ["ab"] and the
    length 3 the call does not end in an [InsufficientCharset] error, it ends
    in the [ValueError] that [random.sample] raises. *)
Lemma generate_password_no_InsufficientCharset :
  (3 > Z.of_nat (length (lit "ab")))%Z
  ∧ (PasswordGenerator.generate_password 3 true (lit "ab") []).1
    = Raised "ValueError"
  ∧ ¬ raises "InsufficientCharset"
        (PasswordGenerator.generate_password 3 true (lit "ab") []).1.
Proof.
  split; [simpl; lia|]. split; [reflexivity|].
  unfold raises. simpl. discriminate.
Qed.

(** Runs of the generator on given draws. *)
Example generate_password_unique_run :
  PasswordGenerator.generate_password 3 true (lit "abcde") [7; 2; 9; 4]
  = (Returned (lit "cea"), [4]).
Proof. reflexivity. Qed.

(** Two of the 26 letters come from the second loop of [random.sample]: it
    draws again after the second 0, and for ever when no other draw
    comes. *)
Example generate_password_unique_redraw :
  PasswordGenerator.generate_password 2 true ascii_lowercase [0; 0; 5]
  = (Returned (lit "af"), [])
  ∧ PasswordGenerator.generate_password 2 true ascii_lowercase []
    = (Loops, []).
Proof. split; reflexivity. Qed.

Example generate_password_repeating_run :
  PasswordGenerator.generate_password 3 false (lit "ab") [7; 2; 8; 4]
  = (Returned (lit "baa"), [4]).
Proof. reflexivity. Qed.

(** A string with a repeated character is no charset; sampled all the same,
    it gives a password that repeats the character. *)
Example generate_password_unique_on_duplicates :
  PasswordGenerator.generate_password 2 true (lit "aa") []
  = (Returned (lit "aa"), []).
Proof. reflexivity. Qed.

(** ** PresentTwoOtherCharsRule *)

Section PresentTwoOtherCharsRule_facts.
Import PresentTwoOtherCharsRule.

Lemma count_length_replicate (c : char) (s : str) :
  count c s = length s ↔ s = replicate (length s) c.
Proof.
  induction s as [|x s IH]; simpl; [done|].
  pose proof (count_le_length c s). case_decide as Hx.
  - subst x. split.
    + intros Hc. f_equal. apply IH. lia.
    + intros [= Hs]. apply IH in Hs. lia.
  - split; [lia|]. by intros [= -> _].
Qed.

Lemma is_satisfied_exists (password : str) :
  is_satisfied password = true
  ↔ ∃ c, c ∈ password ∧ count c password < length password.
Proof.
  unfold is_satisfied. rewrite existsb_exists.
  split; intros (c & Hin & Hc); exists c.
  - apply list_elem_of_In in Hin. by apply bool_decide_eq_true in Hc.
  - apply list_elem_of_In in Hin. by rewrite bool_decide_eq_true.
Qed.

(** C8. The rule is satisfied iff some character of the password occurs
    in it fewer times than the password is long, that is iff the password
    is not empty and is not one character repeated; the empty password and
    the passwords of one character do not satisfy it. *)
Theorem present_two_other_chars (password : str) :
  (is_satisfied password = true
   ↔ ∃ c, c ∈ password ∧ count c password < length password)
  ∧ (is_satisfied password = true
     ↔ password ≠ [] ∧ ¬ (∃ c, password = replicate (length password) c))
  ∧ (length password ≤ 1 → is_satisfied password = false).
Proof.
  split; [apply is_satisfied_exists|].
  assert (is_satisfied password = true
          ↔ password ≠ [] ∧ ¬ (∃ c, password = replicate (length password) c))
    as Hiff.
  { rewrite is_satisfied_exists. split.
    - intros (c & Hin & Hc). split.
      + intros ->. by apply elem_of_nil in Hin.
      + intros (c' & Hrep).
        assert (c = c') as <-.
        { rewrite Hrep in Hin. by apply elem_of_replicate in Hin as [? _]. }
        apply count_length_replicate in Hrep. lia.
    - intros [Hne Hrep]. destruct password as [|x s]; [done|].
      exists x. split; [left|].
      pose proof (count_le_length x (x :: s)) as Hle.
      destruct (decide (count x (x :: s) = length (x :: s))) as [Heq|?];
        [|lia].
      exfalso. apply Hrep. exists x. by apply count_length_replicate. }
  split; [done|].
  intros Hlen. apply not_true_is_false. rewrite Hiff. intros [Hne Hrep].
  destruct password as [|x [|y s]]; [done| |simpl in Hlen; lia].
  apply Hrep. by exists x.
Qed.

End PresentTwoOtherCharsRule_facts.

(** ** PresentCharsubsetsRule *)

Section PresentCharsubsetsRule_facts.
Import PresentCharsubsetsRule.

(** Whether [char] is in the class of index [i]. *)
Let hit (charsubsets : list str) (char : char) (i : nat) : bool :=
  match charsubsets !! i with
  | Some charsubset => bool_decide (char ∈ charsubset)
  | None => false
  end.

Lemma mark_lookup (charsubsets : list str) (char : char)
    (range : list nat) (present : list bool) (i : nat) :
  mark charsubsets char range present !! i
  = (λ b, b || bool_decide (i ∈ range) && hit charsubsets char i)
      <$> present !! i.
Proof.
  revert present.
  induction range as [|j range IH]; intros present; cbn [mark].
  { destruct (present !! i) as [b|]; simpl; [|done].
    by rewrite orb_false_r. }
  rewrite IH. clear IH.
  assert (bool_decide (i ∈ j :: range)
          = bool_decide (i = j) || bool_decide (i ∈ range)) as ->.
  { rewrite <- bool_decide_or. apply bool_decide_ext, elem_of_cons. }
  destruct (decide (i = j)) as [->|Hne].
  - rewrite (bool_decide_eq_true_2 (j = j)) by done. simpl.
    unfold hit. destruct (charsubsets !! j) as [charsubset|] eqn:Hj.
    + destruct (bool_decide (char ∈ charsubset)) eqn:Hin.
      * destruct (present !! j) as [b|] eqn:Hb.
        -- rewrite list_lookup_insert_eq by by eapply lookup_lt_Some.
           simpl. by rewrite !orb_true_r.
        -- rewrite list_insert_ge by by apply lookup_ge_None.
           by rewrite Hb.
      * by rewrite !andb_false_r.
    + by rewrite !andb_false_r.
  - rewrite (bool_decide_eq_false_2 (i = j)) by done. simpl.
    destruct (charsubsets !! j) as [charsubset|]; [|done].
    destruct (bool_decide (char ∈ charsubset)); [|done].
    by rewrite list_lookup_insert_ne.
Qed.

Lemma scan_lookup (charsubsets : list str) (password : str)
    (present : list bool) (i : nat) :
  scan charsubsets password present !! i
  = (λ b, b || existsb (λ char, hit charsubsets char i) password)
      <$> present !! i.
Proof.
  revert present.
  induction password as [|char password IH]; intros present; cbn [scan].
  { destruct (present !! i) as [b|]; simpl; [|done].
    by rewrite orb_false_r. }
  rewrite IH, mark_lookup.
  destruct (present !! i) as [b|]; simpl; [|done].
  f_equal. rewrite <- orb_assoc. f_equal. f_equal.
  unfold hit. destruct (charsubsets !! i) as [charsubset|] eqn:Hi.
  - rewrite bool_decide_eq_true_2; [done|].
    apply elem_of_seq. apply lookup_lt_Some in Hi. lia.
  - by rewrite andb_false_r.
Qed.

Lemma scan_represented (charsubsets : list str) (password : str) :
  scan charsubsets password (replicate (length charsubsets) false)
  = (λ charsubset, bool_decide (represented password charsubset))
      <$> charsubsets.
Proof.
  apply list_eq. intros i. rewrite scan_lookup, list_lookup_fmap.
  unfold hit. destruct (charsubsets !! i) as [charsubset|] eqn:Hi; simpl.
  - rewrite lookup_replicate_2 by by eapply lookup_lt_Some.
    simpl. f_equal. apply eq_true_iff_eq.
    rewrite existsb_exists, bool_decide_eq_true. unfold represented.
    split; intros (c & Hc & Hin); exists c.
    + apply list_elem_of_In in Hc. by apply bool_decide_eq_true in Hin.
    + apply list_elem_of_In in Hc. by rewrite bool_decide_eq_true.
  - rewrite (proj1 (lookup_replicate_None _ _ _)); [done|].
    by apply lookup_ge_None.
Qed.

Lemma count_True_fmap {A} (P : A → Prop) `{∀ x, Decision (P x)}
    (l : list A) :
  count_True ((λ x, bool_decide (P x)) <$> l) = length (filter P l).
Proof.
  unfold count_True.
  induction l as [|x l IH]; [done|].
  rewrite fmap_cons, !filter_cons.
  destruct (decide (P x)) as [HP|HP].
  - rewrite bool_decide_eq_true_2 by done.
    rewrite decide_True by done. simpl. by rewrite IH.
  - rewrite bool_decide_eq_false_2 by done.
    rewrite decide_False by done. done.
Qed.

(** C9. The rule is satisfied iff at least [present_charsubsets_min] of
    the character classes of its list, counted with their repetitions in
    the list, have a character that occurs in the password. *)
Theorem present_charsubsets (charsubsets : list str)
    (present_charsubsets_min : Z) (password : str) :
  is_satisfied charsubsets present_charsubsets_min password = true
  ↔ (Z.of_nat (length (filter (represented password) charsubsets))
     >= present_charsubsets_min)%Z.
Proof.
  unfold is_satisfied. rewrite scan_represented, count_True_fmap.
  case_bool_decide; split; done.
Qed.

End PresentCharsubsetsRule_facts.

(** ** PasswordStrengthCounter *)

Section PasswordStrengthCounter_facts.
Import PasswordStrengthCounter.
Open Scope float_scope.

Lemma count_loop_prefix (rules : list (StrengthRule * float))
    (password : str) (total_weight : float) :
  count_loop rules password total_weight
  = foldl PrimFloat.add total_weight (satisfied_prefix rules password).*2.
Proof.
  revert total_weight.
  induction rules as [|[rule weight] rules IH]; intros t; simpl; [done|].
  destruct (is_satisfied rule password); simpl; [apply IH|done].
Qed.

Lemma satisfied_prefix_all (rules : list (StrengthRule * float))
    (password : str) :
  Forall (λ rw, is_satisfied rw.1 password = true) rules →
  satisfied_prefix rules password = rules.
Proof.
  induction 1 as [|[rule weight] rules Hrule _ IH]; simpl; [done|].
  simpl in Hrule. by rewrite Hrule, IH.
Qed.

Lemma satisfied_prefix_stop (pre post : list (StrengthRule * float))
    (rule : StrengthRule) (weight : float) (password : str) :
  Forall (λ rw, is_satisfied rw.1 password = true) pre →
  is_satisfied rule password = false →
  satisfied_prefix (pre ++ (rule, weight) :: post) password = pre.
Proof.
  intros Hpre Hrule.
  induction Hpre as [|[rule' weight'] pre Hrule' _ IH]; simpl.
  - by rewrite Hrule.
  - simpl in Hrule'. by rewrite Hrule', IH.
Qed.

(** The score of a counter with any ladder: the weights of the rules before
    the first unsatisfied one, summed in order, over 100. *)
Lemma count_strength_prefix (self : t) (password : str) :
  count_strength self password
  = total (satisfied_prefix (rules self) password).*2 / 100.0.
Proof. unfold count_strength, total. by rewrite count_loop_prefix. Qed.

(** Five rules of weight 20 give a score by the number of rules passed. *)
Lemma five_rules_score (rule1 rule2 rule3 rule4 rule5 : StrengthRule)
    (password : str) :
  let ladder :=
    [(rule1, 20.0); (rule2, 20.0); (rule3, 20.0); (rule4, 20.0);
     (rule5, 20.0)] in
  total (satisfied_prefix ladder password).*2 / 100.0
  = nth (length (satisfied_prefix ladder password))
      [0.0; 0.2; 0.4; 0.6; 0.8; 1.0] 0.0.
Proof.
  intros ladder. subst ladder. cbn [satisfied_prefix].
  destruct (is_satisfied rule1 password); [|reflexivity].
  destruct (is_satisfied rule2 password); [|reflexivity].
  destruct (is_satisfied rule3 password); [|reflexivity].
  destruct (is_satisfied rule4 password); [|reflexivity].
  destruct (is_satisfied rule5 password); reflexivity.
Qed.

(** C1. The counter holds the ladder of five rules of weight 20 each,
    [MinimumLength 1], [MinimumLength 8], [PresentTwoOtherChars],
    [PresentCharsubsets] of the four classes with minimum 2, then with
    minimum 3.  For every password, [count_strength] returns the sum, over
    100, of the weights of the rules that come before the first unsatisfied
    rule of the ladder: the rules after it add nothing, be they satisfied or
    not, and when every rule is satisfied the score is 1.0.  With [k] rules
    passed before the first failure the score is the [k]-th of 0.0, 0.2,
    0.4, 0.6, 0.8, 1.0.  The password ["a"] scores 0.2, ["abcdefgh"] 0.6 and
    ["Ab3!defg"] 1.0. *)
Theorem count_strength_ladder (password : str) :
  let charsubsets :=
    [ascii_lowercase; ascii_uppercase; digits; punctuation] in
  rules init
  = [(MinimumLength 1, 20.0); (MinimumLength 8, 20.0);
     (PresentTwoOtherChars, 20.0); (PresentCharsubsets charsubsets 2, 20.0);
     (PresentCharsubsets charsubsets 3, 20.0)]
  ∧ (∀ pre rule weight post,
       rules init = pre ++ (rule, weight) :: post →
       Forall (λ rw, is_satisfied rw.1 password = true) pre →
       is_satisfied rule password = false →
       count_strength init password = total pre.*2 / 100.0)
  ∧ (Forall (λ rw, is_satisfied rw.1 password = true) (rules init) →
     count_strength init password = 1.0)
  ∧ count_strength init password
    = nth (length (satisfied_prefix (rules init) password))
        [0.0; 0.2; 0.4; 0.6; 0.8; 1.0] 0.0
  ∧ count_strength init (lit "a") = 0.2
  ∧ count_strength init (lit "abcdefgh") = 0.6
  ∧ count_strength init (lit "Ab3!defg") = 1.0.
Proof.
  intros charsubsets. split; [reflexivity|]. split; [|split; [|split]].
  - intros pre rule weight post Hrules Hpre Hrule.
    rewrite count_strength_prefix, Hrules.
    by rewrite satisfied_prefix_stop.
  - intros Hall. rewrite count_strength_prefix.
    rewrite satisfied_prefix_all by done. reflexivity.
  - rewrite count_strength_prefix.
    apply (five_rules_score (MinimumLength 1) (MinimumLength 8)
             PresentTwoOtherChars (PresentCharsubsets charsubsets 2)
             (PresentCharsubsets charsubsets 3)).
  - repeat split; vm_compute; reflexivity.
Qed.

End PasswordStrengthCounter_facts.

(** * Further properties *)

(** ** The rules, one by one *)

Section rules_facts.

Lemma count_lt_length (c x : char) (s : str) :
  x ∈ s → x ≠ c → count c s < length s.
Proof.
  induction s as [|y s IH]; intros Hin Hne; [by apply elem_of_nil in Hin|].
  simpl. pose proof (count_le_length c s).
  apply elem_of_cons in Hin as [<-|Hin].
  - rewrite decide_False by done. lia.
  - specialize (IH Hin Hne). case_decide; lia.
Qed.

Lemma count_lt_length_inv (c : char) (s : str) :
  count c s < length s → ∃ x, x ∈ s ∧ x ≠ c.
Proof.
  induction s as [|y s IH]; simpl; [lia|].
  case_decide as Hy; intros Hlt.
  - destruct IH as (x & ? & ?); [lia|]. exists x. split; [by right|done].
  - exists y. split; [left|done].
Qed.

(** Two different characters of a password. *)
Lemma two_other_chars (password : str) :
  PresentTwoOtherCharsRule.is_satisfied password = true
  ↔ ∃ c1 c2, c1 ∈ password ∧ c2 ∈ password ∧ c1 ≠ c2.
Proof.
  rewrite is_satisfied_exists. split.
  - intros (c & Hin & Hlt).
    destruct (count_lt_length_inv c password Hlt) as (x & Hx & Hne).
    by exists x, c.
  - intros (c1 & c2 & H1 & H2 & Hne). exists c2. split; [done|].
    by apply (count_lt_length c2 c1).
Qed.

Lemma charsubsets_count (charsubsets : list str) (min : Z)
    (password : str) :
  PresentCharsubsetsRule.is_satisfied charsubsets min password
  = bool_decide
      (min ≤ Z.of_nat (length (filter (represented password) charsubsets)))%Z.
Proof.
  unfold PresentCharsubsetsRule.is_satisfied.
  rewrite scan_represented, count_True_fmap.
  apply eq_true_iff_eq. rewrite bool_decide_eq_true.
  case_bool_decide; split; (done || lia).
Qed.

Lemma filter_length_mono {A} (P Q : A → Prop) `{∀ x, Decision (P x)}
    `{∀ x, Decision (Q x)} (l : list A) :
  (∀ x, P x → Q x) → length (filter P l) ≤ length (filter Q l).
Proof.
  intros HPQ. induction l as [|x l IH]; [done|].
  rewrite !filter_cons.
  destruct (decide (P x)) as [HP|HP].
  - rewrite decide_True by auto. simpl. lia.
  - case_decide; simpl; lia.
Qed.

(** X1. The rule of the class name: [PresentTwoOtherCharsRule] is satisfied
    iff the password has two characters that differ. *)
Theorem present_two_other_chars_distinct (password : str) :
  PresentTwoOtherCharsRule.is_satisfied password = true
  ↔ ∃ c1 c2, c1 ∈ password ∧ c2 ∈ password ∧ c1 ≠ c2.
Proof. apply two_other_chars. Qed.

(** X2. The bounds of [PresentCharsubsetsRule]: a minimum of zero or less is
    met by every password, the empty one too; a minimum above the number of
    classes is met by none; and the empty password meets no positive
    minimum. *)
Theorem present_charsubsets_bounds (charsubsets : list str) (min : Z)
    (password : str) :
  ((min ≤ 0)%Z →
   PresentCharsubsetsRule.is_satisfied charsubsets min password = true)
  ∧ ((min > Z.of_nat (length charsubsets))%Z →
     PresentCharsubsetsRule.is_satisfied charsubsets min password = false)
  ∧ ((0 < min)%Z →
     PresentCharsubsetsRule.is_satisfied charsubsets min [] = false).
Proof.
  rewrite !charsubsets_count. split; [|split].
  - intros Hmin. apply bool_decide_eq_true. lia.
  - intros Hmin. apply bool_decide_eq_false.
    pose proof (length_filter (represented password) charsubsets). lia.
  - intros Hmin. apply bool_decide_eq_false.
    assert (filter (represented []) charsubsets = []) as ->; [|simpl; lia].
    induction charsubsets as [|cs l IH]; [done|].
    rewrite filter_cons, decide_False; [done|].
    intros (c & Hc & _). by apply elem_of_nil in Hc.
Qed.

(** X3. [PresentCharsubsetsRule] only looks at which characters occur: a
    password that satisfies it still does with a lower minimum, and so does
    every password that has all its characters (a longer one, a reordered
    one). *)
Theorem present_charsubsets_monotone (charsubsets : list str)
    (min min' : Z) (password password' : str) :
  (min' ≤ min)%Z →
  (∀ c, c ∈ password → c ∈ password') →
  PresentCharsubsetsRule.is_satisfied charsubsets min password = true →
  PresentCharsubsetsRule.is_satisfied charsubsets min' password' = true.
Proof.
  intros Hmin Hsub. rewrite !charsubsets_count, !bool_decide_eq_true.
  intros Hsat.
  assert (length (filter (represented password) charsubsets)
          ≤ length (filter (represented password') charsubsets)); [|lia].
  apply filter_length_mono. intros cs (c & Hc & Hcs).
  exists c. auto.
Qed.

End rules_facts.

Lemma present_charsubsets_bounds_witness :
  PresentCharsubsetsRule.is_satisfied [lit "ab"; lit "cd"] 3 (lit "ac")
  = false.
Proof.
  apply (proj1 (proj2 (present_charsubsets_bounds [lit "ab"; lit "cd"] 3
                         (lit "ac")))).
  simpl. lia.
Defined.

Lemma present_charsubsets_monotone_witness :
  PresentCharsubsetsRule.is_satisfied [lit "ab"; lit "cd"] 1 (lit "xcya")
  = true.
Proof.
  apply (present_charsubsets_monotone [lit "ab"; lit "cd"] 2 1
           (lit "ac") (lit "xcya")).
  - lia.
  - intros c Hc. simpl in *. rewrite !elem_of_cons in *. tauto.
  - reflexivity.
Defined.

(** ** The ladder of the counter *)

Section ladder_facts.
Import PasswordStrengthCounter.

(** The four classes have no character in common. *)
Lemma charsubsets_disjoint (i j : nat) (cs1 cs2 : str) (c : char) :
  charsubsets !! i = Some cs1 → charsubsets !! j = Some cs2 → i ≠ j →
  c ∈ cs1 → c ∉ cs2.
Proof.
  intros Hi Hj Hne.
  assert (Forall (λ x, x ∉ cs2) cs1) as Hall;
    [|intros Hc; exact (proj1 (Forall_forall _ _) Hall c Hc)].
  destruct i as [|[|[|[|i]]]]; simplify_eq/=;
    destruct j as [|[|[|[|j]]]]; simplify_eq/=;
    by apply (bool_decide_unpack _); vm_compute.
Qed.

Lemma filter_lookup_two {A} (P : A → Prop) `{∀ x, Decision (P x)}
    (l : list A) :
  2 ≤ length (filter P l) →
  ∃ i j x y, i ≠ j ∧ l !! i = Some x ∧ l !! j = Some y ∧ P x ∧ P y.
Proof.
  induction l as [|a l IH]; [simpl; lia|].
  rewrite filter_cons. destruct (decide (P a)) as [Ha|Ha].
  - simpl. intros Hlen.
    destruct (filter P l) as [|y k] eqn:Hk; [simpl in Hlen; lia|].
    assert (y ∈ filter P l) as [Hy HPy]%list_elem_of_filter
      by (rewrite Hk; left).
    apply list_elem_of_lookup in HPy as [j Hj].
    by exists 0, (S j), a, y.
  - intros Hlen. destruct (IH Hlen) as (i & j & x & y & ? & ? & ? & ? & ?).
    exists (S i), (S j), x, y. split; [lia|done].
Qed.

(** Two classes of the four take two different characters. *)
Lemma classes_present_two (password : str) :
  2 ≤ classes_present password →
  ∃ c1 c2, c1 ∈ password ∧ c2 ∈ password ∧ c1 ≠ c2.
Proof.
  intros Hlen.
  destruct (filter_lookup_two _ _ Hlen)
    as (i & j & cs1 & cs2 & Hne & Hi & Hj & (c1 & ? & Hc1) & (c2 & ? & Hc2)).
  exists c1, c2. split; [done|]. split; [done|]. intros ->.
  by apply (charsubsets_disjoint i j cs1 cs2 c2).
Qed.

Lemma minimum_length (min_length : Z) (password : str) :
  is_satisfied (MinimumLength min_length) password
  = bool_decide (min_length ≤ Z.of_nat (length password))%Z.
Proof.
  simpl. unfold MinimumLengthRule.is_satisfied.
  apply bool_decide_ext. lia.
Qed.

Lemma present_classes (min : Z) (password : str) :
  is_satisfied (PresentCharsubsets charsubsets min) password
  = bool_decide (min ≤ Z.of_nat (classes_present password))%Z.
Proof. simpl. apply charsubsets_count. Qed.

(** The rules that a password passes in a ladder of five, by the rules that
    it satisfies. *)
Lemma satisfied_prefix_five (rule1 rule2 rule3 rule4 rule5 : StrengthRule)
    (w1 w2 w3 w4 w5 : float) (password : str) :
  length
    (satisfied_prefix
       [(rule1, w1); (rule2, w2); (rule3, w3); (rule4, w4); (rule5, w5)]
       password)
  = if is_satisfied rule1 password then
      if is_satisfied rule2 password then
        if is_satisfied rule3 password then
          if is_satisfied rule4 password then
            if is_satisfied rule5 password then 5 else 4
          else 3
        else 2
      else 1
    else 0.
Proof.
  cbn [satisfied_prefix].
  repeat (match goal with
          | |- context [is_satisfied ?r password] =>
              destruct (is_satisfied r password)
          end); reflexivity.
Qed.

Lemma rules_passed_flags (password : str) :
  rules_passed password
  = if is_satisfied (MinimumLength 1) password then
      if is_satisfied (MinimumLength 8) password then
        if is_satisfied PresentTwoOtherChars password then
          if is_satisfied (PresentCharsubsets charsubsets 2) password then
            if is_satisfied (PresentCharsubsets charsubsets 3) password
            then 5 else 4
          else 3
        else 2
      else 1
    else 0.
Proof. apply satisfied_prefix_five. Qed.

Lemma two_other_chars_true (password : str) :
  (∃ c1 c2, c1 ∈ password ∧ c2 ∈ password ∧ c1 ≠ c2) →
  is_satisfied PresentTwoOtherChars password = true.
Proof. apply two_other_chars. Qed.

Lemma two_other_chars_false (password : str) :
  (∀ c1 c2, c1 ∈ password → c2 ∈ password → c1 = c2) →
  is_satisfied PresentTwoOtherChars password = false.
Proof.
  intros Hsame. apply not_true_is_false.
  intros (c1 & c2 & H1 & H2 & Hne)%two_other_chars. by apply Hne, Hsame.
Qed.

(** How far a password gets in the ladder, by its length, its characters
    and the classes that it represents. *)
Lemma rules_passed_cases (password : str) :
  (length password = 0 → rules_passed password = 0)
  ∧ (0 < length password < 8 → rules_passed password = 1)
  ∧ (8 ≤ length password →
     (∀ c1 c2, c1 ∈ password → c2 ∈ password → c1 = c2) →
     rules_passed password = 2)
  ∧ (8 ≤ length password →
     (∃ c1 c2, c1 ∈ password ∧ c2 ∈ password ∧ c1 ≠ c2) →
     classes_present password < 2 →
     rules_passed password = 3)
  ∧ (8 ≤ length password → classes_present password = 2 →
     rules_passed password = 4)
  ∧ (8 ≤ length password → 3 ≤ classes_present password →
     rules_passed password = 5).
Proof.
  rewrite rules_passed_flags, !minimum_length, !present_classes.
  repeat split.
  - intros Hlen. by rewrite bool_decide_eq_false_2 by lia.
  - intros Hlen. rewrite bool_decide_eq_true_2 by lia.
    by rewrite bool_decide_eq_false_2 by lia.
  - intros Hlen Hsame. rewrite !bool_decide_eq_true_2 by lia.
    by rewrite two_other_chars_false.
  - intros Hlen Htwo Hcls. rewrite !bool_decide_eq_true_2 by lia.
    rewrite two_other_chars_true by done.
    by rewrite bool_decide_eq_false_2 by lia.
  - intros Hlen Hcls. rewrite !bool_decide_eq_true_2 by lia.
    rewrite two_other_chars_true by (apply classes_present_two; lia).
    by rewrite bool_decide_eq_false_2 by lia.
  - intros Hlen Hcls. rewrite !bool_decide_eq_true_2 by lia.
    by rewrite two_other_chars_true by (apply classes_present_two; lia).
Qed.

Lemma count_strength_rules_passed (password : str) :
  count_strength init password
  = nth (rules_passed password) [0.0; 0.2; 0.4; 0.6; 0.8; 1.0]%float
      0.0%float.
Proof.
  rewrite count_strength_prefix.
  apply (five_rules_score (MinimumLength 1) (MinimumLength 8)
           PresentTwoOtherChars (PresentCharsubsets charsubsets 2)
           (PresentCharsubsets charsubsets 3)).
Qed.

Lemma rules_passed_le (password : str) : rules_passed password ≤ 5.
Proof. rewrite rules_passed_flags. repeat case_match; lia. Qed.

End ladder_facts.

Section score_facts.
Import PasswordStrengthCounter.

Lemma rules_passed_5 (password : str) :
  rules_passed password = 5
  ↔ 8 ≤ length password ∧ 3 ≤ classes_present password.
Proof.
  split; [|intros [? ?]; by apply rules_passed_cases].
  rewrite rules_passed_flags, !minimum_length, !present_classes.
  repeat case_bool_decide; repeat case_match; try done; lia.
Qed.

Lemma rules_passed_0 (password : str) :
  rules_passed password = 0 ↔ password = [].
Proof.
  split; [|intros ->; by apply rules_passed_cases].
  rewrite rules_passed_flags, !minimum_length.
  case_bool_decide as Hlen; [repeat case_match; done|].
  intros _. apply nil_length_inv. lia.
Qed.

Lemma score_lt (n : nat) (x : float) :
  n < 5 →
  nth n [0.0; 0.2; 0.4; 0.6; 0.8; 1.0]%float 0.0%float = 1.0%float → False.
Proof.
  intros Hn Heq.
  apply (f_equal (λ y, PrimFloat.ltb y 0.9%float)) in Heq.
  destruct n as [|[|[|[|[|n]]]]]; vm_compute in Heq; (discriminate || lia).
Qed.

Lemma score_gt (n : nat) :
  0 < n → n ≤ 5 →
  nth n [0.0; 0.2; 0.4; 0.6; 0.8; 1.0]%float 0.0%float = 0.0%float → False.
Proof.
  intros Hn Hn' Heq.
  apply (f_equal (λ y, PrimFloat.ltb y 0.1%float)) in Heq.
  destruct n as [|[|[|[|[|[|n]]]]]]; vm_compute in Heq;
    (discriminate || lia).
Qed.

Lemma filter_none {A} (P : A → Prop) `{∀ x, Decision (P x)} (l : list A) :
  (∀ x, x ∈ l → ¬ P x) → filter P l = [].
Proof.
  induction l as [|x l IH]; intros Hl; [done|].
  rewrite filter_cons, decide_False by (apply Hl; left).
  apply IH. intros y Hy. apply Hl. by right.
Qed.

(** Where every satisfied rule has all the rules before it satisfied, the
    loop stops after the last satisfied rule. *)
Lemma satisfied_prefix_filter (rules : list (StrengthRule * float))
    (password : str) :
  (∀ pre rw post,
     rules = pre ++ rw :: post → is_satisfied rw.1 password = true →
     Forall (λ rw', is_satisfied rw'.1 password = true) pre) →
  satisfied_prefix rules password
  = filter (λ rw, is_satisfied rw.1 password = true) rules.
Proof.
  induction rules as [|[rule weight] rules IH]; intros Hclosed; [done|].
  rewrite filter_cons. simpl.
  destruct (is_satisfied rule password) eqn:Hrule.
  - rewrite decide_True by done. f_equal. apply IH.
    intros pre rw post -> Hrw.
    specialize (Hclosed ((rule, weight) :: pre) rw post eq_refl Hrw).
    by apply Forall_cons in Hclosed as [_ ?].
  - rewrite decide_False by done. symmetry. apply filter_none.
    intros rw Hin Hrw.
    apply list_elem_of_split in Hin as (pre & post & ->).
    specialize (Hclosed ((rule, weight) :: pre) rw post eq_refl Hrw).
    apply Forall_cons in Hclosed as [Hhead _]. simpl in Hhead. congruence.
Qed.

(** X4. The score of a password by what it is made of: 0.0 for the empty
    password, 0.2 for one to seven characters whatever they are, and from
    eight characters on 0.4 for one character repeated, 0.6 for different
    characters of fewer than two of the four classes, 0.8 for exactly two
    classes and 1.0 for three or four. *)
Theorem count_strength_by_password (password : str) :
  (length password = 0 → count_strength init password = 0.0%float)
  ∧ (0 < length password < 8 → count_strength init password = 0.2%float)
  ∧ (8 ≤ length password →
     (∀ c1 c2, c1 ∈ password → c2 ∈ password → c1 = c2) →
     count_strength init password = 0.4%float)
  ∧ (8 ≤ length password →
     (∃ c1 c2, c1 ∈ password ∧ c2 ∈ password ∧ c1 ≠ c2) →
     classes_present password < 2 →
     count_strength init password = 0.6%float)
  ∧ (8 ≤ length password → classes_present password = 2 →
     count_strength init password = 0.8%float)
  ∧ (8 ≤ length password → 3 ≤ classes_present password →
     count_strength init password = 1.0%float).
Proof.
  rewrite count_strength_rules_passed.
  destruct (rules_passed_cases password)
    as (H0 & H1 & H2 & H3 & H4 & H5).
  repeat split; intros.
  - by rewrite H0.
  - by rewrite H1.
  - by rewrite H2.
  - by rewrite H3.
  - by rewrite H4.
  - by rewrite H5.
Qed.

(** X5. The ends of the scale: the score is 1.0 iff the password has at
    least eight characters and represents at least three of the four
    classes, and it is 0.0 iff the password is empty. *)
Theorem count_strength_extremes (password : str) :
  (count_strength init password = 1.0%float
   ↔ 8 ≤ length password ∧ 3 ≤ classes_present password)
  ∧ (count_strength init password = 0.0%float ↔ password = []).
Proof.
  rewrite count_strength_rules_passed, <- rules_passed_5, <- rules_passed_0.
  pose proof (rules_passed_le password) as Hle.
  split; (split; [|by intros ->]); intros Heq.
  - destruct (decide (rules_passed password = 5)) as [|Hne]; [done|].
    exfalso. apply (score_lt (rules_passed password) 0%float); [lia|done].
  - destruct (decide (rules_passed password = 0)) as [|Hne]; [done|].
    exfalso. apply (score_gt (rules_passed password)); [lia|done|done].
Qed.

(** X6. The early exit of the loop only tells on short passwords: for a
    password of eight characters or more, the score is the sum of the
    weights of all the rules that it satisfies, over 100. *)
Theorem count_strength_sum_satisfied (password : str) :
  8 ≤ length password →
  count_strength init password
  = (total (filter (λ rw, is_satisfied rw.1 password = true)
              (rules init)).*2 / 100.0)%float.
Proof.
  intros Hlen. rewrite count_strength_prefix. do 3 f_equal.
  apply satisfied_prefix_filter. intros pre rw post Hrules Hrw.
  assert (is_satisfied (MinimumLength 1) password = true) as Hr1.
  { rewrite minimum_length. apply bool_decide_eq_true. lia. }
  assert (is_satisfied (MinimumLength 8) password = true) as Hr2.
  { rewrite minimum_length. apply bool_decide_eq_true. lia. }
  assert (∀ m, (2 ≤ m)%Z →
            is_satisfied (PresentCharsubsets charsubsets m) password = true →
            is_satisfied PresentTwoOtherChars password = true
            ∧ is_satisfied (PresentCharsubsets charsubsets 2) password = true)
    as Hcls.
  { intros m Hm. rewrite !present_classes, !bool_decide_eq_true.
    intros Hsat. split; [|lia].
    apply two_other_chars_true, classes_present_two. lia. }
  cbn [rules init] in Hrules.
  destruct pre as [|? [|? [|? [|? [|? [|? pre]]]]]];
    cbn [app] in Hrules; simplify_eq; cbn [fst] in *.
  all: repeat apply Forall_cons_2; try apply Forall_nil_2; cbn [fst].
  all: try done.
  all: try (by eapply Hcls; [|done]).
Qed.

End score_facts.

Lemma count_strength_sum_satisfied_witness :
  PasswordStrengthCounter.count_strength PasswordStrengthCounter.init
    (lit "abcdefgh")
  = (total
       (filter (λ rw, is_satisfied rw.1 (lit "abcdefgh") = true)
          (PasswordStrengthCounter.rules PasswordStrengthCounter.init)).*2
     / 100.0)%float.
Proof.
  apply (count_strength_sum_satisfied (lit "abcdefgh")). simpl. lia.
Defined.

(** A short password with three classes passes the three last rules and
    still scores 0.2. *)
Example count_strength_short :
  is_satisfied PresentTwoOtherChars (lit "Ab3!") = true
  ∧ is_satisfied (PresentCharsubsets charsubsets 3) (lit "Ab3!") = true
  ∧ PasswordStrengthCounter.count_strength PasswordStrengthCounter.init
      (lit "Ab3!")
    = 0.2%float.
Proof. repeat split; vm_compute; reflexivity. Qed.

(** ** PasswordStrengthWidget *)

Section PasswordStrengthWidget_facts.
Import PasswordStrengthCounter PasswordStrengthWidget.

Lemma color_rules_passed (self : PasswordStrengthWidget.t)
    (password : str) :
  get_color_for_strength
    (set_strength self (count_strength PasswordStrengthCounter.init password))
  = nth (rules_passed password) [red; red; red; yellow; blue; green] green.
Proof.
  rewrite count_strength_rules_passed.
  pose proof (rules_passed_le password) as Hle.
  destruct (rules_passed password) as [|[|[|[|[|[|n]]]]]];
    (reflexivity || lia).
Qed.

(** X7. The colour of the strength bar once it has the score of a password:
    red for a password of fewer than eight characters, or of one character
    repeated; yellow for eight characters or more that differ, of fewer than
    two of the four classes; blue for eight or more of exactly two classes;
    green for eight or more of three or four classes. *)
Theorem color_by_password (self : PasswordStrengthWidget.t)
    (password : str) :
  let shown :=
    get_color_for_strength
      (set_strength self
         (count_strength PasswordStrengthCounter.init password)) in
  (length password < 8 → shown = red)
  ∧ ((∀ c1 c2, c1 ∈ password → c2 ∈ password → c1 = c2) → shown = red)
  ∧ (8 ≤ length password →
     (∃ c1 c2, c1 ∈ password ∧ c2 ∈ password ∧ c1 ≠ c2) →
     classes_present password < 2 →
     shown = yellow)
  ∧ (8 ≤ length password → classes_present password = 2 → shown = blue)
  ∧ (8 ≤ length password → 3 ≤ classes_present password → shown = green).
Proof.
  intros shown. subst shown. rewrite color_rules_passed.
  destruct (rules_passed_cases password)
    as (H0 & H1 & H2 & H3 & H4 & H5).
  split; [|split; [|split; [|split]]].
  - intros Hlen. destruct (decide (length password = 0)).
    + by rewrite H0.
    + by rewrite H1 by lia.
  - intros Hsame. destruct (decide (length password < 8)).
    + destruct (decide (length password = 0)).
      * by rewrite H0.
      * by rewrite H1 by lia.
    + by rewrite H2 by (done || lia).
  - intros. by rewrite H3.
  - intros. by rewrite H4.
  - intros. by rewrite H5.
Qed.

End PasswordStrengthWidget_facts.

(** ** PasswordGenerator, at and beyond the bounds *)

Section PasswordGenerator_bounds.
Import random PasswordGenerator.

Lemma choice_lookup (seq : str) (j : nat) (c : char) (g : state) :
  seq !! j = Some c → choice seq (j :: g) = (Returned c, g).
Proof.
  intros Hj. pose proof (lookup_lt_Some _ _ _ Hj) as Hlt.
  unfold choice. rewrite decide_False by lia.
  assert (randbelow (length seq) (j :: g) = (Returned j, g)) as Hrand.
  { simpl. by rewrite Nat.mod_small. }
  rewrite (bind_returned _ _ _ _ _ Hrand). by apply getitem_lookup.
Qed.

Lemma choices_any (charset : str) (range : list nat) (password : str) :
  length range = length password →
  (∀ c, c ∈ password → c ∈ charset) →
  ∃ g, choices charset range g = (Returned password, []).
Proof.
  revert range.
  induction password as [|c password IH]; intros range Hlen Hall.
  { destruct range; [|done]. by exists []. }
  destruct range as [|i range]; [done|].
  destruct (IH range) as [g Hg]; [by simplify_eq/=| |].
  { intros c' Hc'. apply Hall. by right. }
  destruct (list_elem_of_lookup_1 charset c) as [j Hj]; [apply Hall; left|].
  exists (j :: g). cbn [choices].
  rewrite (bind_returned _ _ _ _ _ (choice_lookup _ _ _ _ Hj)).
  by rewrite (bind_returned _ _ _ _ _ Hg).
Qed.

(** X8. Asked with [unique_chars] for as many characters as the charset
    has, [generate_password] returns the characters of the charset in some
    order. *)
Theorem generate_password_whole_charset (charset : str) (g : state) :
  ∃ password g',
    generate_password (Z.of_nat (length charset)) true charset g
    = (Returned password, g')
    ∧ password ≡ₚ charset.
Proof.
  destruct (sample_returns charset (Z.of_nat (length charset)) g)
    as (pw & g' & Hrun & Hlen & Hsub);
    [lia|left; rewrite Nat2Z.id; apply le_setsize|].
  exists pw, g'. split; [done|].
  apply submseteq_length_Permutation; [done|lia].
Qed.

(** X9. A length of zero or less: without [unique_chars] the password is
    empty and nothing is drawn, on any charset, the empty one too; with
    [unique_chars] the length 0 gives the empty password as well. *)
Theorem generate_password_no_length (length : Z) (charset : str)
    (g : state) :
  ((length ≤ 0)%Z →
   generate_password length false charset g = (Returned [], g))
  ∧ generate_password 0 true charset g = (Returned [], g).
Proof.
  split.
  - intros Hlen. simpl. by replace (Z.to_nat length) with 0 by lia.
  - simpl. unfold sample. rewrite bool_decide_eq_true_2 by lia.
    by case_decide.
Qed.

Lemma empty_charset_raises (length : Z) (g : state) :
  (0 < length)%Z →
  generate_password length false [] g = (Raised "IndexError", g)
  ∧ generate_password length true [] g = (Raised "ValueError", g).
Proof.
  intros Hlen. split.
  - simpl. destruct (Z.to_nat length) as [|n] eqn:Hn; [lia|]. done.
  - simpl. apply sample_raises. simpl. lia.
Qed.

(** X10. On the empty charset a positive length raises, by the mode, the
    [IndexError] of [random.choice] or the [ValueError] of
    [random.sample]; in both cases nothing is drawn. *)
Theorem generate_password_empty_charset (length : Z) (g : state) :
  (0 < length)%Z →
  generate_password length false [] g = (Raised "IndexError", g)
  ∧ generate_password length true [] g = (Raised "ValueError", g).
Proof. apply empty_charset_raises. Qed.

(** X11. For a length of 1 or more, [validate_rules] refuses exactly the
    requests on which [generate_password] raises, whatever the validator
    held and whatever is drawn.  A request that it accepts gets a password
    on every sequence of draws without [unique], and with [unique] on every
    sequence that suffices for [random.sample]. *)
Theorem validate_rules_iff_generated (self : PasswordRulesValidator.t)
    (length : Z) (unique : bool) (charset : str) (g : state) :
  (1 ≤ length)%Z →
  ((PasswordRulesValidator.validate_rules self length unique charset).1
   = false
   ↔ ∃ e, (generate_password length unique charset g).1 = Raised e)
  ∧ ((unique = true →
      draws_suffice (List.length charset) (Z.to_nat length) g) →
     ((PasswordRulesValidator.validate_rules self length unique charset).1
      = true
      ↔ ∃ password g',
          generate_password length unique charset g
          = (Returned password, g'))).
Proof.
  intros Hlen. unfold PasswordRulesValidator.validate_rules.
  destruct (decide (List.length charset = 0)) as [Hnil|Hne].
  { apply nil_length_inv in Hnil as ->.
    destruct (empty_charset_raises length g) as [Hf Ht]; [lia|].
    cbn [fst]. split.
    - split; [intros _|done]. destruct unique; eexists; by rewrite ?Hf, ?Ht.
    - intros _. split; [done|]. intros (pw & g' & Hgen).
      destruct unique; congruence. }
  destruct unique; cbn [andb].
  - change (generate_password length true charset)
      with (sample charset length).
    case_bool_decide as Hlong; cbn [fst].
    + rewrite (sample_raises charset length g) by lia. cbn [fst]. split.
      * split; [intros _; by eexists|done].
      * intros _. split; [done|]. by intros (pw & g' & ?).
    + split.
      * split; [done|]. intros [e He].
        destruct (sample_cases charset length g)
          as [Hloop|(pw & g' & Hrun & _)]; [lia| |].
        -- rewrite Hloop in He. done.
        -- rewrite Hrun in He. done.
      * intros Hdraws. split; [intros _|done].
        destruct (sample_returns charset length g) as (pw & g' & ? & _);
          [lia|by apply Hdraws|]. by exists pw, g'.
  - change (generate_password length false charset)
      with (choices charset (seq 0 (Z.to_nat length))).
    destruct (choices_returns charset (seq 0 (Z.to_nat length)) g)
      as (pw & g' & Hrun & _); [by intros ->|].
    cbn [fst]. split.
    + split; [done|]. intros [e He]. rewrite Hrun in He. done.
    + intros _. split; [intros _|done]. by exists pw, g'.
Qed.

(** X12. [validate_rules] does not look at the sign of the length: with
    [unique] and a non-empty charset it accepts a negative length, for
    which [generate_password] raises the [ValueError] of [random.sample]. *)
Theorem validate_rules_negative_length (self : PasswordRulesValidator.t)
    (length : Z) (charset : str) (g : state) :
  (length < 0)%Z → charset ≠ [] →
  PasswordRulesValidator.validate_rules self length true charset
  = (true, self)
  ∧ generate_password length true charset g = (Raised "ValueError", g).
Proof.
  intros Hlen Hne. split.
  - unfold PasswordRulesValidator.validate_rules.
    rewrite decide_False by (by intros ?%nil_length_inv).
    simpl. by rewrite bool_decide_eq_false_2 by lia.
  - simpl. apply sample_raises. lia.
Qed.

(** X13. Without [unique_chars] nothing is left out: every string of
    characters of the charset is the password of some run. *)
Theorem generate_password_any (charset password : str) :
  (∀ c, c ∈ password → c ∈ charset) →
  ∃ g,
    generate_password (Z.of_nat (length password)) false charset g
    = (Returned password, []).
Proof.
  intros Hall. simpl. apply choices_any; [|done].
  rewrite length_seq. lia.
Qed.

End PasswordGenerator_bounds.

Lemma generate_password_no_length_witness :
  PasswordGenerator.generate_password (-2) false [] [5; 1]
  = (Returned [], [5; 1]).
Proof.
  apply (proj1 (generate_password_no_length (-2) [] [5; 1])). lia.
Defined.

Lemma generate_password_empty_charset_witness :
  PasswordGenerator.generate_password 4 false [] [5; 1]
  = (Raised "IndexError", [5; 1])
  ∧ PasswordGenerator.generate_password 4 true [] [5; 1]
    = (Raised "ValueError", [5; 1]).
Proof.
  apply (generate_password_empty_charset 4 [5; 1]). lia.
Defined.

Lemma validate_rules_iff_generated_witness :
  (PasswordRulesValidator.validate_rules PasswordRulesValidator.init 2 true
     ascii_lowercase).1 = true
  ↔ ∃ password g',
      PasswordGenerator.generate_password 2 true ascii_lowercase [0; 0; 5]
      = (Returned password, g').
Proof.
  apply (proj2 (validate_rules_iff_generated PasswordRulesValidator.init 2
                  true ascii_lowercase [0; 0; 5] ltac:(lia))).
  intros _. right. vm_compute. lia.
Defined.

Lemma validate_rules_negative_length_witness :
  PasswordRulesValidator.validate_rules PasswordRulesValidator.init (-1) true
    (lit "ab")
  = (true, PasswordRulesValidator.init)
  ∧ PasswordGenerator.generate_password (-1) true (lit "ab") []
    = (Raised "ValueError", []).
Proof.
  apply (validate_rules_negative_length PasswordRulesValidator.init (-1)
           (lit "ab") []); [lia|discriminate].
Defined.

Lemma generate_password_any_witness :
  ∃ g,
    PasswordGenerator.generate_password (Z.of_nat (length (lit "abba")))
      false (lit "ab") g
    = (Returned (lit "abba"), []).
Proof.
  apply (generate_password_any (lit "ab") (lit "abba")).
  intros c Hc. simpl in *. rewrite !elem_of_cons in *. tauto.
Defined.

(** ** PasswordRulesValidator, call after call *)

Section PasswordRulesValidator_history.
Import PasswordRulesValidator.

Lemma validate_error (self : t) (r : request) :
  error (validate self r).2
  = match failure r with Some m => Some m | None => error self end.
Proof.
  unfold failure, validate, validate_rules. repeat case_match; done.
Qed.

Lemma validate_verdict (self : t) (r : request) :
  (validate self r).1 = (validate init r).1.
Proof. unfold validate, validate_rules. repeat case_match; done. Qed.

(** X14. After any sequence of [validate_rules] calls, [self.error] is the
    message of the last call that failed, and what it was before them when
    none failed; and the verdict of a call does not depend on the calls
    before it. *)
Theorem validate_all_error (self : t) (requests : list request) :
  error (validate_all self requests) = last_failure (error self) requests
  ∧ ∀ r, (validate (validate_all self requests) r).1
         = (validate init r).1.
Proof.
  split; [|intros r; apply validate_verdict].
  revert self. induction requests as [|r requests IH]; intros self; [done|].
  simpl. unfold validate_all in IH. rewrite IH. by rewrite validate_error.
Qed.

End PasswordRulesValidator_history.

(** ** CharsetBuilder, with [build()] among the calls *)

Section CharsetBuilder_ops.
Import CharsetBuilder.
Variable join_set : str → str.
Hypothesis join_set_order : set_order join_set.

(** Two builders whose fields hold the same characters. *)
Let same_chars (b1 b2 : t) : Prop :=
  ∀ c, (c ∈ included_chars b1 ↔ c ∈ included_chars b2)
       ∧ (c ∈ excluded_chars b1 ↔ c ∈ excluded_chars b2).

Lemma same_chars_ops (ops : list builder_op) (b1 b2 : t) :
  same_chars b1 b2 →
  same_chars (foldl (do_op join_set) b1 ops) (foldl do_call b2 (calls_of ops)).
Proof.
  revert b1 b2.
  induction ops as [|[[chars|chars]|] ops IH]; intros b1 b2 Hsame; simpl.
  - done.
  - apply IH. intros c. destruct (Hsame c) as [Hi He]. simpl.
    by rewrite !elem_of_app, Hi.
  - apply IH. intros c. destruct (Hsame c) as [Hi He]. simpl.
    by rewrite !elem_of_app, He.
  - apply IH. intros c. destruct (Hsame c) as [Hi He].
    destruct (build_fields join_set join_set_order b1 c) as [Hi' He'].
    by rewrite Hi', He'.
Qed.

(** X15. The builder can be built and then filled further: whatever
    [build()] calls come among the [include_chars] and [exclude_chars]
    calls, the last [build()] returns the characters, each once, that it
    returns after the same calls without them. *)
Theorem build_after_builds (ops : list builder_op) :
  let charset := (build join_set (run_ops join_set ops)).1 in
  NoDup charset
  ∧ charset ≡ₚ (build join_set (run (calls_of ops))).1.
Proof.
  intros charset. subst charset.
  split; [by apply build_NoDup|].
  apply NoDup_Permutation; [by apply build_NoDup..|].
  intros c. rewrite !elem_of_build by done.
  assert (same_chars init init) as Hinit by done.
  destruct (same_chars_ops ops init init Hinit c) as [Hi He].
  unfold run_ops, run. by rewrite Hi, He.
Qed.

End CharsetBuilder_ops.

Lemma build_after_builds_witness :
  set_order remove_dups
  ∧ (CharsetBuilder.build remove_dups
       (run_ops remove_dups
          [Call (CharsetBuilder.Include (lit "aab")); BuildCall;
           Call (CharsetBuilder.Exclude (lit "b"));
           Call (CharsetBuilder.Include (lit "bc"))])).1
    ≡ₚ (CharsetBuilder.build remove_dups
          (CharsetBuilder.run
             (calls_of
                [Call (CharsetBuilder.Include (lit "aab")); BuildCall;
                 Call (CharsetBuilder.Exclude (lit "b"));
                 Call (CharsetBuilder.Include (lit "bc"))]))).1.
Proof.
  split; [exact remove_dups_order|].
  exact (proj2 (build_after_builds remove_dups remove_dups_order
                  [Call (CharsetBuilder.Include (lit "aab")); BuildCall;
                   Call (CharsetBuilder.Exclude (lit "b"));
                   Call (CharsetBuilder.Include (lit "bc"))])).
Defined.

(** ** PasswordGeneratorWidget *)

Section PasswordGeneratorWidget_facts.
Import PasswordGeneratorWidget.
Variable join_set : str → str.
Hypothesis join_set_order : set_order join_set.

Lemma elem_of_build_charset (self : t) (c : char) :
  c ∈ widget_build_charset join_set self
  ↔ offered self c ∧ c ∉ exclude_chars_edit self.
Proof.
  unfold widget_build_charset, offered.
  rewrite (elem_of_build join_set join_set_order).
  destruct (lowercase_check self), (uppercase_check self),
    (digits_check self), (punctuation_check self);
    cbn [CharsetBuilder.include_chars CharsetBuilder.exclude_chars
         CharsetBuilder.included_chars CharsetBuilder.excluded_chars
         CharsetBuilder.init app];
    rewrite ?elem_of_app; rewrite ?elem_of_nil; intuition congruence.
Qed.

(** X16. The charset that the window builds has no duplicate, and holds
    exactly the characters of the checked classes and of the field of
    custom characters that are not in the field of excluded characters. *)
Theorem build_charset_chars (self : t) :
  NoDup (widget_build_charset join_set self)
  ∧ ∀ c, c ∈ widget_build_charset join_set self
         ↔ offered self c ∧ c ∉ exclude_chars_edit self.
Proof.
  split; [|apply elem_of_build_charset].
  unfold widget_build_charset. by apply build_NoDup.
Qed.

(** X17. A click on Generate, with a length of 0 or more in the spin box
    (its range is 1 to 128), never raises.  When the charset built from the
    window is empty, or shorter than the length with the box of unique
    characters checked, it shows the message of this failure (never one left
    by an earlier click), draws nothing and leaves the password field and
    the strength bar as they were.  Otherwise it shows no message and puts
    in the field a password of the asked length, made of offered characters
    that are not excluded, without repeated character when the box is
    checked, and gives the bar the score of this password.  The slot comes
    to this end on every sequence of draws when the box is not checked, and
    when it is, on every sequence that suffices for [random.sample]; its
    only other outcome is that loop of [random.sample] drawing for ever. *)
Theorem on_generate_password_outcome (self : t) :
  (0 ≤ password_length_spinbox self)%Z →
  let length := password_length_spinbox self in
  let unique := password_unique_check self in
  let charset := widget_build_charset join_set self in
  let ends (g : random.state) : Prop :=
    ∃ self' box g',
      on_generate_password join_set self g = (Returned (self', box), g')
      ∧ ((charset = []
          ∨ (unique = true ∧ (length > Z.of_nat (List.length charset))%Z) →
          box
          = Some (critical "I'm sorry"
                    (Some (if decide (charset = [])
                           then "A charset is empty."
                           else "The charset is too short.")))
          ∧ g' = g
          ∧ result_password_edit self' = result_password_edit self
          ∧ password_strength_widget self' = password_strength_widget self)
         ∧ (¬ (charset = []
               ∨ (unique = true
                  ∧ (length > Z.of_nat (List.length charset))%Z)) →
            let password := result_password_edit self' in
            box = None
            ∧ Z.of_nat (List.length password) = length
            ∧ (∀ c, c ∈ password →
                 offered self c ∧ c ∉ exclude_chars_edit self)
            ∧ (unique = true → NoDup password)
            ∧ PasswordStrengthWidget.strength
                (password_strength_widget self')
              = PasswordStrengthCounter.count_strength
                  (password_strength_counter self) password
            ∧ password_rules_validator self'
              = password_rules_validator self)) in
  (∀ g,
     (unique = true →
      draws_suffice (List.length charset) (Z.to_nat length) g) →
     ends g)
  ∧ (∀ g, ends g ∨ (on_generate_password join_set self g).1 = Loops).
Proof.
  intros Hlen length unique charset ends.
  assert (charset = []
          ∨ (unique = true ∧ (length > Z.of_nat (List.length charset))%Z) →
          ∀ g, ends g) as Hfail.
  { intros Hcase g. unfold ends, on_generate_password.
    fold length unique charset.
    unfold PasswordRulesValidator.validate_rules.
    destruct (decide (List.length charset = 0)) as [Hnil|Hne].
    - apply nil_length_inv in Hnil.
      eexists _, _, _. split; [reflexivity|]. split; [|tauto].
      intros _. simpl. by rewrite decide_True.
    - destruct Hcase as [->|[Hu Hlong]]; [done|].
      rewrite Hu, bool_decide_eq_true_2 by done. simpl.
      eexists _, _, _. split; [reflexivity|]. split; [|tauto].
      intros _. simpl. rewrite decide_False; [done|]. by intros ->. }
  assert (¬ (charset = []
             ∨ (unique = true ∧ (length > Z.of_nat (List.length charset))%Z)) →
          PasswordRulesValidator.validate_rules
            (password_rules_validator self) length unique charset
          = (true, password_rules_validator self)) as Hvalid.
  { intros Hcase. unfold PasswordRulesValidator.validate_rules.
    rewrite decide_False by (intros ?%nil_length_inv; tauto).
    destruct unique; simpl; [|done].
    rewrite bool_decide_eq_false_2; [done|]. intros ?. apply Hcase. by right. }
  assert (∀ g pw g',
    ¬ (charset = []
       ∨ (unique = true ∧ (length > Z.of_nat (List.length charset))%Z)) →
    PasswordGenerator.generate_password length unique charset g
    = (Returned pw, g') →
    Z.of_nat (List.length pw) = length →
    (∀ c, c ∈ pw → c ∈ charset) →
    (unique = true → NoDup pw) →
    ends g) as Hpass.
  { intros g pw g' Hcase Hrun Hpw Hall Hnd.
    unfold ends, on_generate_password. fold length unique charset.
    rewrite (Hvalid Hcase).
    eexists _, _, _. split.
    { by rewrite (bind_returned _ _ _ _ _ Hrun). }
    split; [tauto|]. intros _. simpl.
    split; [done|]. split; [done|]. split; [|done].
    intros c Hc. by apply elem_of_build_charset, Hall. }
  assert (∀ g,
    ¬ (charset = []
       ∨ (unique = true ∧ (length > Z.of_nat (List.length charset))%Z)) →
    (PasswordGenerator.generate_password length unique charset g).1 = Loops →
    (on_generate_password join_set self g).1 = Loops) as Hloops.
  { intros g Hcase Hrun. unfold on_generate_password.
    fold length unique charset. rewrite (Hvalid Hcase).
    destruct (PasswordGenerator.generate_password length unique charset g)
      as [o g'] eqn:Hgen. simpl in Hrun. subst o.
    by rewrite (bind_loops _ _ _ _ Hgen). }
  assert (∀ pw, pw ⊆+ charset → unique = true → NoDup pw) as Hnodup.
  { intros pw Hsub _. eapply submseteq_NoDup; [done|].
    unfold charset, widget_build_charset. by apply build_NoDup. }
  assert (∀ g, unique = false → charset ≠ [] →
    ∃ pw g',
      PasswordGenerator.generate_password length unique charset g
      = (Returned pw, g')
      ∧ Z.of_nat (List.length pw) = length
      ∧ (∀ c, c ∈ pw → c ∈ charset)) as Hchoices.
  { intros g -> Hne.
    destruct (choices_returns charset (seq 0 (Z.to_nat length)) g Hne)
      as (pw & g' & ? & Hpw & ?).
    exists pw, g'. split; [done|].
    split; [rewrite Hpw, length_seq; lia|done]. }
  split; intros g.
  - intros Hdraws.
    destruct (decide (charset = []
      ∨ (unique = true ∧ (length > Z.of_nat (List.length charset))%Z)))
      as [Hcase|Hcase]; [by apply Hfail|].
    destruct unique eqn:Hu.
    + destruct (sample_returns charset length g)
        as (pw & g' & Hrun & Hpw & Hsub); [lia|by apply Hdraws|].
      apply (Hpass g pw g'); try done.
      * intros c Hc. by eapply elem_of_submseteq.
      * by apply Hnodup.
    + destruct (Hchoices g) as (pw & g' & Hrun & Hpw & Hall);
        [done|tauto|].
      by apply (Hpass g pw g').
  - destruct (decide (charset = []
      ∨ (unique = true ∧ (length > Z.of_nat (List.length charset))%Z)))
      as [Hcase|Hcase]; [left; by apply Hfail|].
    destruct unique eqn:Hu.
    + destruct (sample_cases charset length g)
        as [Hloop|(pw & g' & Hrun & Hpw & Hsub)]; [lia| |].
      * right. by apply Hloops.
      * left. apply (Hpass g pw g'); try done.
        -- intros c Hc. by eapply elem_of_submseteq.
        -- by apply Hnodup.
    + destruct (Hchoices g) as (pw & g' & Hrun & Hpw & Hall);
        [done|tauto|].
      left. by apply (Hpass g pw g').
Qed.

End PasswordGeneratorWidget_facts.

Lemma build_charset_chars_witness :
  set_order remove_dups
  ∧ NoDup (PasswordGeneratorWidget.widget_build_charset remove_dups example_window).
Proof.
  split; [exact remove_dups_order|].
  exact (proj1 (build_charset_chars remove_dups remove_dups_order
                  example_window)).
Defined.

Lemma on_generate_password_outcome_witness :
  set_order remove_dups
  ∧ (0 ≤ PasswordGeneratorWidget.password_length_spinbox letters_window)%Z
  ∧ ∃ self' box g',
      PasswordGeneratorWidget.on_generate_password remove_dups letters_window
        [0; 0; 5]
      = (Returned (self', box), g').
Proof.
  split; [exact remove_dups_order|]. split; [simpl; lia|].
  destruct (proj1 (on_generate_password_outcome remove_dups remove_dups_order
                     letters_window ltac:(simpl; lia))
              [0; 0; 5])
    as (self' & box & g' & Hrun & _).
  - intros _. right. vm_compute. lia.
  - exists self', box, g'. exact Hrun.
Defined.

(** The click on the example window. *)
Example on_generate_password_run :
  ∃ self',
    PasswordGeneratorWidget.on_generate_password remove_dups example_window
      [3; 1; 4; 1; 5; 9; 2; 6]
    = (Returned (self', None), [2; 6])
    ∧ PasswordGeneratorWidget.result_password_edit self' = lit "geh9im"
    ∧ PasswordStrengthWidget.strength
        (PasswordGeneratorWidget.password_strength_widget self')
      = 0.2%float.
Proof. eexists. split; [vm_compute; reflexivity|]. split; reflexivity. Qed.

(** The click on the window of letters, where the second draw repeats the
    first position and is drawn again; with no draw left the slot never
    ends. *)
Example on_generate_password_redraw :
  (∃ self',
     PasswordGeneratorWidget.on_generate_password remove_dups letters_window
       [0; 0; 5]
     = (Returned (self', None), [])
     ∧ PasswordGeneratorWidget.result_password_edit self' = lit "af")
  ∧ (PasswordGeneratorWidget.on_generate_password remove_dups letters_window
       []).1
    = Loops.
Proof.
  split; [|vm_compute; reflexivity].
  eexists. split; [vm_compute; reflexivity|reflexivity].
Qed.
